(** * rest-layer-mongo: query translation and the CRUD handler

    A shallow embedding of the MongoDB storage handler of REST Layer
    (the query translator of the lookup file and the [Handler] methods
    of the handler file) together with the properties its specification
    states about it.

    Go maps ([bson.M], [map[string]interface{}]) are finite maps with
    string keys; Go's [interface{}] values are the inductive [value];
    [(T, error)] results are the sum [Result]; the driver session is an
    explicit [World] threaded through every handler method.  Go's [int]
    is [Z]: the one sum the package computes, an offset plus the number
    of items found behind it, is bounded by the number of stored
    documents. *)

From stdpp Require Import gmap strings list fin_maps pretty.
From Stdlib Require Import ZArith Ascii.

Set Warnings "-register-all".
Set Default Proof Using "Type".

Local Open Scope string_scope.
Local Open Scope Z_scope.

(** ** Values

    What an [interface{}] holds in this package: identifiers, payload
    fields, the operands of a predicate and the filter documents built
    from them.  [VDocs] is Go's [[]bson.M], which is a type of its own
    beside [[]interface{}] ([VList]).  A [bson.ObjectId] is kept by its
    hexadecimal form, a [time.Time] by its millisecond count. *)
Inductive value :=
| VNil
| VBool (b : bool)
| VInt (z : Z)
| VStr (s : string)
| VObjectId (hex : string)
| VTime (t : Z)
| VList (l : list value)
| VDocs (l : list (gmap string value))
| VDoc (m : gmap string value).

(** [bson.M], and also a stored document and an item's payload. *)
Abbreviation bsonM := (gmap string value).

Definition msize_with (sz : value -> nat) (m : bsonM) : nat :=
  map_fold (fun _ x acc => (sz x + acc)%nat) 0%nat m.

Fixpoint vsize (v : value) : nat :=
  match v with
  | VList l => S (foldr (fun x acc => (vsize x + acc)%nat) 0%nat l)
  | VDocs l => S (foldr (fun m acc => (S (msize_with vsize m) + acc)%nat) 0%nat l)
  | VDoc m => S (msize_with vsize m)
  | _ => 1%nat
  end.

(** Boolean equality of maps, given one on their values. *)
Definition map_eqb (eqb : value -> value -> bool) (m1 m2 : bsonM) : bool :=
  bool_decide (dom m1 = dom m2) &&
  map_fold (fun k v acc =>
              acc && match m2 !! k with Some v' => eqb v v' | None => false end)
           true m1.

Fixpoint list_eqb {A} (eqb : A -> A -> bool) (l1 l2 : list A) : bool :=
  match l1, l2 with
  | [], [] => true
  | a :: l1', b :: l2' => eqb a b && list_eqb eqb l1' l2'
  | _, _ => false
  end.

Fixpoint value_eqb (x y : value) {struct x} : bool :=
  match x, y with
  | VNil, VNil => true
  | VBool a, VBool b => bool_decide (a = b)
  | VInt a, VInt b => bool_decide (a = b)
  | VStr a, VStr b => bool_decide (a = b)
  | VObjectId a, VObjectId b => bool_decide (a = b)
  | VTime a, VTime b => bool_decide (a = b)
  | VList l1, VList l2 => list_eqb value_eqb l1 l2
  | VDocs l1, VDocs l2 => list_eqb (map_eqb value_eqb) l1 l2
  | VDoc m1, VDoc m2 => map_eqb value_eqb m1 m2
  | _, _ => false
  end.

Lemma msize_lookup (m : bsonM) k v :
  m !! k = Some v -> (vsize v <= msize_with vsize m)%nat.
Proof.
  intros H. unfold msize_with.
  rewrite <- (insert_delete_id m k v H).
  rewrite map_fold_insert_L.
  - lia.
  - intros. lia.
  - apply lookup_delete_eq.
Qed.

(** Induction over values that reaches inside lists and documents. *)
Lemma value_nested_ind (P : value -> Prop) :
  P VNil -> (forall b, P (VBool b)) -> (forall z, P (VInt z)) ->
  (forall s, P (VStr s)) -> (forall h, P (VObjectId h)) ->
  (forall t, P (VTime t)) ->
  (forall l, Forall P l -> P (VList l)) ->
  (forall l, Forall (map_Forall (fun _ => P)) l -> P (VDocs l)) ->
  (forall m, map_Forall (fun _ => P) m -> P (VDoc m)) ->
  forall v, P v.
Proof.
  intros HN HB HI HS HO HT HL HDs HD v.
  remember (vsize v) as n eqn:Hn. revert v Hn.
  induction n as [n IH] using lt_wf_ind. intros v Hn.
  destruct v; auto.
  - apply HL. simpl in Hn. apply Forall_forall. intros x Hx.
    apply (IH (vsize x)); [|done]. subst n.
    clear -Hx. induction Hx; simpl; lia.
  - apply HDs. simpl in Hn. apply Forall_forall. intros m Hm k x Hk.
    apply (IH (vsize x)); [|done]. subst n.
    apply msize_lookup in Hk.
    clear -Hm Hk. induction Hm; simpl; lia.
  - apply HD. simpl in Hn. intros k x Hk.
    apply (IH (vsize x)); [|done]. subst n.
    apply msize_lookup in Hk. lia.
Qed.

Lemma map_fold_andb_true (f : string -> value -> bool) (m : bsonM) :
  map_fold (fun k v acc => acc && f k v) true m = true <->
  map_Forall (fun k v => f k v = true) m.
Proof.
  induction m as [|k v m Hk Hfold IH] using map_first_key_ind.
  - rewrite map_fold_empty. split; [intros _; apply map_Forall_empty|done].
  - rewrite map_fold_insert_first_key by done.
    rewrite andb_true_iff, IH, map_Forall_insert by done. tauto.
Qed.

Lemma map_eqb_spec (eqb : value -> value -> bool) (m1 m2 : bsonM) :
  map_Forall (fun _ v => forall y, eqb v y = true <-> v = y) m1 ->
  map_eqb eqb m1 m2 = true <-> m1 = m2.
Proof.
  intros IH. unfold map_eqb.
  rewrite andb_true_iff, bool_decide_eq_true, map_fold_andb_true.
  split.
  - intros [Hdom Hall]. apply map_eq. intros k.
    destruct (m1 !! k) as [v|] eqn:E1.
    + specialize (Hall k v E1). simpl in Hall.
      destruct (m2 !! k) as [v'|]; [|done].
      apply (IH k v E1) in Hall. by subst.
    + apply not_elem_of_dom in E1. rewrite Hdom in E1.
      apply not_elem_of_dom in E1. by rewrite E1.
  - intros <-. split; [done|]. intros k v E1. simpl. rewrite E1.
    by apply (IH k v E1).
Qed.

Lemma list_eqb_spec {A} (eqb : A -> A -> bool) (l1 l2 : list A) :
  Forall (fun v => forall y, eqb v y = true <-> v = y) l1 ->
  list_eqb eqb l1 l2 = true <-> l1 = l2.
Proof.
  intros IH. revert l2.
  induction IH as [|a l1 Ha _ IHl]; intros [|b l2]; simpl; try done.
  rewrite andb_true_iff, Ha, IHl. split; [intros [-> ->]|intros [= -> ->]]; done.
Qed.

Lemma value_eqb_spec x y : value_eqb x y = true <-> x = y.
Proof.
  revert y. induction x using value_nested_ind; intros y; destruct y; simpl;
    rewrite ?bool_decide_eq_true; try (split; congruence).
  - rewrite list_eqb_spec by done. split; congruence.
  - rewrite list_eqb_spec.
    + split; congruence.
    + eapply Forall_impl; [done|]. intros m Hm m'. by apply map_eqb_spec.
  - rewrite map_eqb_spec by done. split; congruence.
Qed.

#[global] Instance value_eq_dec : EqDecision value.
Proof.
  intros x y. destruct (value_eqb x y) eqn:E.
  - left. by apply value_eqb_spec.
  - right. intros H. apply value_eqb_spec in H. congruence.
Defined.

(** ** Errors and results *)

(** The error values this package returns or tests for: the sentinels of
    the resource package, the driver's "not found" and duplicate-key
    errors, the two errors of a finished context, and any other error of
    the driver or the handler function. *)
Inductive error :=
| ErrNotFound          (* resource.ErrNotFound *)
| ErrConflict          (* resource.ErrConflict *)
| ErrNotImplemented    (* resource.ErrNotImplemented *)
| MgoErrNotFound       (* mgo.ErrNotFound *)
| MgoDuplicateKey      (* an error for which mgo.IsDup holds *)
| Canceled             (* context.Canceled *)
| DeadlineExceeded     (* context.DeadlineExceeded *)
| OtherError (msg : string).

#[global] Instance error_eq_dec : EqDecision error.
Proof. solve_decision. Defined.

(** [mgo.IsDup err]; a [nil] error is not a duplicate. *)
Definition IsDup (err : option error) : bool :=
  match err with Some MgoDuplicateKey => true | _ => false end.

(** A Go result [(T, error)] of which exactly one side is meaningful. *)
Inductive Result (A : Type) :=
| Ok (a : A)
| Err (e : error).
Arguments Ok {A} a.
Arguments Err {A} e.

Definition bindR {A B} (r : Result A) (k : A -> Result B) : Result B :=
  match r with Ok a => k a | Err e => Err e end.

Notation "'try' x <- r ; k" := (bindR r (fun x => k))
  (at level 10, x name, r at level 100, k at level 200).

(** ** The query model of the schema layer, as this package reads it *)

(** A compiled [*regexp.Regexp]; [String] gives back the text it was
    compiled from. *)
Record Regexp := { re_source : string }.
Definition Regexp_String (r : Regexp) : string := re_source r.

(** The dynamic types an [Expression] can have.  The fourteen first ones
    are the cases of the type switch in [translatePredicate];
    [SubPredicate] is a [query.Predicate] standing as an operand, as the
    tests build it; [OtherExpression] is any further implementation of
    the interface, such as the tests' [UnsupportedExpression]. *)
Inductive Expression :=
| And (exps : list Expression)
| Or (exps : list Expression)
| ElemMatch (Field : string) (Exps : list Expression)
| In (Field : string) (Values : list value)
| NotIn (Field : string) (Values : list value)
| Exist (Field : string)
| NotExist (Field : string)
| Equal (Field : string) (Value : value)
| NotEqual (Field : string) (Value : value)
| GreaterThan (Field : string) (Value : value)
| GreaterOrEqual (Field : string) (Value : value)
| LowerThan (Field : string) (Value : value)
| LowerOrEqual (Field : string) (Value : value)
| Regex (Field : string) (Value : Regexp)
| SubPredicate (exps : list Expression)
| OtherExpression (type_name : string).

Abbreviation Predicate := (list Expression).

Record SortField := { Name : string; Reversed : bool }.

Record Window := { Offset : Z; Limit : Z }.

(** [query.Query]; a [nil] window is [None]. *)
Record Query := {
  q_Predicate : Predicate;
  q_Sort : list SortField;
  q_Window : option Window;
}.

(** ** Query translation *)

Definition getField (f : string) : string :=
  if decide (f = "id") then "_id" else f.

(** One round of the loop of [translatePredicate]: the case of the type
    switch for [exp], writing into the document [b] built so far.  The
    recursive calls of the source are on the one-element predicate
    [query.Predicate{subExp}], that is on [subExp] with an empty [b]. *)
Fixpoint translateExpression (b : bsonM) (exp : Expression) {struct exp}
  : Result bsonM :=
  let subPredicates :=
    fix subPredicates (t : list Expression) (s : list bsonM)
      : Result (list bsonM) :=
      match t with
      | [] => Ok s
      | subExp :: t' =>
          try sb <- translateExpression ∅ subExp;
          subPredicates t' (s ++ [sb])%list
      end in
  let mergePredicates :=
    fix mergePredicates (t : list Expression) (s : bsonM) : Result bsonM :=
      match t with
      | [] => Ok s
      | subExp :: t' =>
          try sb <- translateExpression ∅ subExp;
          mergePredicates t' (sb ∪ s)
      end in
  match exp with
  | And t =>
      try s <- subPredicates t [];
      Ok (<["$and" := VDocs s]> b)
  | Or t =>
      try s <- subPredicates t [];
      Ok (<["$or" := VDocs s]> b)
  | ElemMatch f exps =>
      try s <- mergePredicates exps ∅;
      Ok (<[getField f := VDoc {["$elemMatch" := VDoc s]}]> b)
  | In f vs => Ok (<[getField f := VDoc {["$in" := VList vs]}]> b)
  | NotIn f vs => Ok (<[getField f := VDoc {["$nin" := VList vs]}]> b)
  | Exist f => Ok (<[getField f := VDoc {["$exists" := VBool true]}]> b)
  | NotExist f => Ok (<[getField f := VDoc {["$exists" := VBool false]}]> b)
  | Equal f v => Ok (<[getField f := v]> b)
  | NotEqual f v => Ok (<[getField f := VDoc {["$ne" := v]}]> b)
  | GreaterThan f v => Ok (<[getField f := VDoc {["$gt" := v]}]> b)
  | GreaterOrEqual f v => Ok (<[getField f := VDoc {["$gte" := v]}]> b)
  | LowerThan f v => Ok (<[getField f := VDoc {["$lt" := v]}]> b)
  | LowerOrEqual f v => Ok (<[getField f := VDoc {["$lte" := v]}]> b)
  | Regex f re =>
      Ok (<[getField f := VDoc {["$regex" := VStr (Regexp_String re)]}]> b)
  | SubPredicate _ => Err ErrNotImplemented
  | OtherExpression _ => Err ErrNotImplemented
  end.

(** The loop over the expressions of a predicate. *)
Fixpoint translateLoop (q : Predicate) (b : bsonM) : Result bsonM :=
  match q with
  | [] => Ok b
  | exp :: q' => try b' <- translateExpression b exp; translateLoop q' b'
  end.

Definition translatePredicate (q : Predicate) : Result bsonM :=
  translateLoop q ∅.

Definition getQuery (q : Query) : Result bsonM :=
  translatePredicate (q_Predicate q).

Definition getSort (q : Query) : list string :=
  if decide (length (q_Sort q) = 0%nat) then ["_id"]
  else map (fun sort =>
              if Reversed sort then "-" +:+ getField (Name sort)
              else getField (Name sort))
           (q_Sort q).

(** ** Items and their stored form *)

(** [resource.Item]. *)
Record Item := {
  ID : value;
  ETag : string;
  Updated : Z;
  Payload : bsonM;
}.

(** [mongoItem], the bson representation of an item. *)
Record mongoItem := {
  mID : value;          (* `bson:"_id"` *)
  mETag : string;       (* `bson:"_etag"` *)
  mUpdated : Z;         (* `bson:"_updated"` *)
  mPayload : bsonM;     (* `bson:",inline"` *)
}.

(** [resource.ItemList]. *)
Record ItemList := {
  Total : Z;
  ListLimit : Z;
  Items : list Item;
}.

(** [newMongoItem]: the payload is copied key by key, leaving "id" out. *)
Definition newMongoItem (i : Item) : mongoItem :=
  let p := filter (fun kv => kv.1 <> "id") (Payload i) in
  {| mID := ID i; mETag := ETag i; mUpdated := Updated i; mPayload := p |}.

(** What the package takes from outside its own code: the server's
    decision whether a stored document satisfies a filter document, the
    server's ordering of documents by a sort list, and [fmt.Sprint]. *)
Record Env := {
  matches : bsonM -> bsonM -> bool;
  sortDocs : list string -> list bsonM -> list bsonM;
  Sprint : value -> string;
}.

(** The bson encoding of a [mongoItem], and the decoding of a stored
    document into one: the three tagged fields, every other key inline
    in the payload. *)
Definition encodeItem (i : mongoItem) : bsonM :=
  <["_id" := mID i]> (<["_etag" := VStr (mETag i)]>
    (<["_updated" := VTime (mUpdated i)]> (mPayload i))).

Definition decodeItem (d : bsonM) : mongoItem :=
  {| mID := default VNil (d !! "_id");
     mETag := match d !! "_etag" with Some (VStr s) => s | _ => "" end;
     mUpdated := match d !! "_updated" with Some (VTime t) => t | _ => 0 end;
     mPayload := delete "_id" (delete "_etag" (delete "_updated" d)) |}.

(** ** The driver session *)

(** A [*mgo.Query] under construction. *)
Record MgoQuery := {
  find_filter : bsonM;
  find_sort : list string;
  find_skip : option Z;
  find_limit : option Z;
  find_select : option bsonM;
}.

Definition Collection_Find (query : bsonM) : MgoQuery :=
  {| find_filter := query; find_sort := []; find_skip := None;
     find_limit := None; find_select := None |}.

Definition Collection_FindId (id : value) : MgoQuery :=
  Collection_Find {["_id" := id]}.

Definition Query_Sort (fields : list string) (mq : MgoQuery) : MgoQuery :=
  {| find_filter := find_filter mq; find_sort := fields;
     find_skip := find_skip mq; find_limit := find_limit mq;
     find_select := find_select mq |}.

Definition Query_Skip (n : Z) (mq : MgoQuery) : MgoQuery :=
  {| find_filter := find_filter mq; find_sort := find_sort mq;
     find_skip := Some n; find_limit := find_limit mq;
     find_select := find_select mq |}.

Definition Query_Limit (n : Z) (mq : MgoQuery) : MgoQuery :=
  {| find_filter := find_filter mq; find_sort := find_sort mq;
     find_skip := find_skip mq; find_limit := Some n;
     find_select := find_select mq |}.

Definition Query_Select (selector : bsonM) (mq : MgoQuery) : MgoQuery :=
  {| find_filter := find_filter mq; find_sort := find_sort mq;
     find_skip := find_skip mq; find_limit := find_limit mq;
     find_select := Some selector |}.

Definition applyWindow (mq : MgoQuery) (w : Window) : MgoQuery :=
  let mq := if 0 <? Offset w then Query_Skip (Offset w) mq else mq in
  if -1 <? Limit w then Query_Limit (Limit w) mq else mq.

(** The round trips to the server a handler method can make. *)
Inductive Call :=
| CallInsert (docs : list bsonM)
| CallUpdate (selector update : bsonM)
| CallRemove (selector : bsonM)
| CallRemoveAll (selector : bsonM)
| CallCount (mq : MgoQuery)
| CallIter (mq : MgoQuery).

(** What the surroundings do during one round trip: the driver may fail
    it with an error ([ev_error]), and the context may end while it
    lasts ([ev_done], with [Canceled] or [DeadlineExceeded]). *)
Record Event := {
  ev_error : option error;
  ev_done : option error;
}.

(** The state a handler method runs in: the documents of the collection
    in their natural order, what [ctx.Err()] answers now, the error of
    the handler function if it has one, the events of the round trips to
    come (none left: nothing happens), and the round trips made so far. *)
Record World := {
  coll : list bsonM;
  ctx_err : option error;
  handler_err : option error;
  script : list Event;
  calls : list Call;
}.

Definition set_coll (c : list bsonM) (w : World) : World :=
  {| coll := c; ctx_err := ctx_err w; handler_err := handler_err w;
     script := script w; calls := calls w |}.

(** One round trip: it is recorded, the next event is consumed, a
    context that ended stays ended.  The answer is the error the driver
    fails the call with, if any. *)
Definition roundTrip (c : Call) (w : World) : option error * World :=
  match script w with
  | [] =>
      (None,
       {| coll := coll w; ctx_err := ctx_err w; handler_err := handler_err w;
          script := []; calls := (calls w ++ [c])%list |})
  | ev :: rest =>
      (ev_error ev,
       {| coll := coll w;
          ctx_err := match ctx_err w with
                     | Some e => Some e
                     | None => ev_done ev
                     end;
          handler_err := handler_err w;
          script := rest; calls := (calls w ++ [c])%list |})
  end.

(** [Handler.c]: the context is checked, then the handler function gives
    the collection or an error.  Socket timeouts taken from the deadline
    are real time and are left out. *)
Definition Handler_c (w : World) : option error :=
  match ctx_err w with
  | Some err => Some err
  | None => handler_err w
  end.

(** *** The server's side of each call *)

Definition docID (d : bsonM) : value := default VNil (d !! "_id").

(** An ordered insert: documents go in one by one, the first one whose
    [_id] is taken stops the batch with a duplicate-key error. *)
Fixpoint insertDocs (docs : list bsonM) (c : list bsonM)
  : option error * list bsonM :=
  match docs with
  | [] => (None, c)
  | d :: docs' =>
      if existsb (fun d' => bool_decide (d' !! "_id" = d !! "_id")) c
      then (Some MgoDuplicateKey, c)
      else insertDocs docs' (c ++ [d])%list
  end.

(** Replace, or remove, the first document a test accepts. *)
Fixpoint replaceFirst (p : bsonM -> bool) (new : bsonM) (c : list bsonM)
  : option (list bsonM) :=
  match c with
  | [] => None
  | d :: c' =>
      if p d then Some (new :: c')
      else (fun r => d :: r) <$> replaceFirst p new c'
  end.

Fixpoint removeFirst (p : bsonM -> bool) (c : list bsonM)
  : option (list bsonM) :=
  match c with
  | [] => None
  | d :: c' =>
      if p d then Some c' else (fun r => d :: r) <$> removeFirst p c'
  end.

(** A skip, and a limit; a limit of zero is no limit at all, as the
    comment in [Find] records of the server. *)
Definition skipDocs (n : option Z) (l : list bsonM) : list bsonM :=
  match n with
  | Some n => drop (Z.to_nat n) l
  | None => l
  end.

Definition limitDocs (n : option Z) (l : list bsonM) : list bsonM :=
  match n with
  | Some n => if n =? 0 then l else take (Z.to_nat n) l
  | None => l
  end.

(** A projection keeps the selected keys. *)
Definition selectDoc (sel : option bsonM) (d : bsonM) : bsonM :=
  match sel with
  | Some sel => filter (fun kv => kv.1 ∈ dom sel) d
  | None => d
  end.

Section Driver.
Variable env : Env.

(** The documents a cursor over [mq] yields. *)
Definition cursor (mq : MgoQuery) (c : list bsonM) : list bsonM :=
  map (selectDoc (find_select mq))
    (limitDocs (find_limit mq)
       (skipDocs (find_skip mq)
          (sortDocs env (find_sort mq)
             (filter (fun d => matches env (find_filter mq) d = true) c)))).

(** The documents a count over [mq] counts: order plays no part. *)
Definition counted (mq : MgoQuery) (c : list bsonM) : list bsonM :=
  limitDocs (find_limit mq)
    (skipDocs (find_skip mq)
       (filter (fun d => matches env (find_filter mq) d = true) c)).

Definition Collection_Insert (docs : list bsonM) (w : World)
  : option error * World :=
  let '(failure, w1) := roundTrip (CallInsert docs) w in
  match failure with
  | Some e => (Some e, w1)
  | None =>
      let '(err, c) := insertDocs docs (coll w1) in
      (err, set_coll c w1)
  end.

Definition Collection_Update (selector update : bsonM) (w : World)
  : option error * World :=
  let '(failure, w1) := roundTrip (CallUpdate selector update) w in
  match failure with
  | Some e => (Some e, w1)
  | None =>
      match replaceFirst (matches env selector) update (coll w1) with
      | Some c => (None, set_coll c w1)
      | None => (Some MgoErrNotFound, w1)
      end
  end.

Definition Collection_Remove (selector : bsonM) (w : World)
  : option error * World :=
  let '(failure, w1) := roundTrip (CallRemove selector) w in
  match failure with
  | Some e => (Some e, w1)
  | None =>
      match removeFirst (matches env selector) (coll w1) with
      | Some c => (None, set_coll c w1)
      | None => (Some MgoErrNotFound, w1)
      end
  end.

(** [RemoveAll] answers a [*mgo.ChangeInfo], here its [Removed] count,
    or [nil] with the error when the call fails. *)
Definition Collection_RemoveAll (selector : bsonM) (w : World)
  : (option Z * option error) * World :=
  let '(failure, w1) := roundTrip (CallRemoveAll selector) w in
  match failure with
  | Some e => ((None, Some e), w1)
  | None =>
      let gone := filter (fun d => matches env selector d = true) (coll w1) in
      let kept := filter (fun d => matches env selector d <> true) (coll w1) in
      ((Some (Z.of_nat (length gone)), None), set_coll kept w1)
  end.

Definition Query_Count (mq : MgoQuery) (w : World)
  : (Z * option error) * World :=
  let '(failure, w1) := roundTrip (CallCount mq) w in
  match failure with
  | Some e => ((0, Some e), w1)
  | None => ((Z.of_nat (length (counted mq (coll w1))), None), w1)
  end.

(** [Iter] with the [Next] loop run to its end: the documents yielded
    and the error [Close] reports. *)
Definition Query_Iter (mq : MgoQuery) (w : World)
  : (list bsonM * option error) * World :=
  let '(failure, w1) := roundTrip (CallIter mq) w in
  match failure with
  | Some e => (([], Some e), w1)
  | None => ((cursor mq (coll w1), None), w1)
  end.
End Driver.

(** ** The handler *)

Section Handler.
Variable env : Env.

(** [newItem]: the identifier goes back into the payload, and an item
    stored without an ETag gets a provisional one made of its id. *)
Definition newItem (i : mongoItem) : Item :=
  let payload := <["id" := mID i]> (mPayload i) in
  let etag :=
    if decide (mETag i = "") then
      match mID i with
      | VObjectId hex => "p-" +:+ hex
      | id => "p-" +:+ Sprint env id
      end
    else mETag i in
  {| ID := mID i; ETag := etag; Updated := mUpdated i; Payload := payload |}.

Definition selectIDs (mq : MgoQuery) (w : World)
  : Result (list value) * World :=
  let '((docs, closeErr), w1) :=
    Query_Iter env (Query_Select {["_id" := VInt 1]} mq) w in
  let ids := map docID docs in
  match closeErr with
  | Some err => (Err err, w1)
  | None => (Ok ids, w1)
  end.

(** [Insert]. *)
Definition Insert (items : list Item) (w : World) : option error * World :=
  let mItems := map (fun item => encodeItem (newMongoItem item)) items in
  match Handler_c w with
  | Some err => (Some err, w)
  | None =>
      let '(err, w1) := Collection_Insert mItems w in
      let err := if IsDup err then Some ErrConflict else err in
      match ctx_err w1 with
      | Some cerr => (Some cerr, w1)
      | None => (err, w1)
      end
  end.

(** The tail shared, line for line, by [Update] and [Delete]: what is
    done with the error of the write. *)
Definition afterWrite (id : value) (r : option error * World)
  : option error * World :=
  let '(err, w1) := r in
  if decide (err = Some MgoErrNotFound) then
    let '((count, err), w2) := Query_Count env (Collection_FindId id) w1 in
    match err with
    | Some e => (Some e, w2)
    | None =>
        if count =? 0 then (Some ErrNotFound, w2)
        else match ctx_err w2 with
             | Some cerr => (Some cerr, w2)
             | None => (Some ErrConflict, w2)
             end
    end
  else (err, w1).

(** [Update]. *)
Definition Update (item original : Item) (w : World) : option error * World :=
  let mItem := newMongoItem item in
  match Handler_c w with
  | Some err => (Some err, w)
  | None =>
      let s : bsonM := {["_id" := ID original]} in
      let s :=
        if String.prefix "p-" (ETag original)
        then <["_etag" := VDoc {["$exists" := VBool false]}]> s
        else <["_etag" := VStr (ETag original)]> s in
      afterWrite (ID original) (Collection_Update env s (encodeItem mItem) w)
  end.

(** [Delete]. *)
Definition Delete (item : Item) (w : World) : option error * World :=
  match Handler_c w with
  | Some err => (Some err, w)
  | None =>
      let s : bsonM := {["_id" := ID item]} in
      let s :=
        if String.prefix "p-" (ETag item)
        then <["_etag" := VDoc {["$exists" := VBool false]}]> s
        else <["_etag" := VStr (ETag item)]> s in
      afterWrite (ID item) (Collection_Remove env s w)
  end.

(** [Clear]: the number of removed items and an error, both of which
    can be present. *)
Definition Clear (q : Query) (w : World) : (Z * option error) * World :=
  match getQuery q with
  | Err err => ((0, Some err), w)
  | Ok qry =>
      match Handler_c w with
      | Some err => ((0, Some err), w)
      | None =>
          let '(r, w1) :=
            match q_Window q with
            | Some window =>
                let srt := getSort q in
                let mq :=
                  applyWindow (Query_Sort srt (Collection_Find qry)) window in
                let '(r, w1) := selectIDs mq w in
                match r with
                | Ok ids => (Ok {["_id" := VDoc {["$in" := VList ids]}]}, w1)
                | Err err => (Err err, w1)
                end
            | None => (Ok qry, w)
            end in
          match r with
          | Err err => ((0, Some err), w1)
          | Ok qry =>
              let '((info, err), w2) := Collection_RemoveAll env qry w1 in
              let err := match err with
                         | None => ctx_err w2
                         | Some e => Some e
                         end in
              match info with
              | None => ((0, err), w2)
              | Some removed => ((removed, err), w2)
              end
          end
      end
  end.

(** [Count].  The deadline handed to [SetMaxTime] is real time and is
    left out, here and in [Find]. *)
Definition Count (query : Query) (w : World) : (Z * option error) * World :=
  match getQuery query with
  | Err err => ((-1, Some err), w)
  | Ok q =>
      match Handler_c w with
      | Some err => ((-1, Some err), w)
      | None => Query_Count env (Collection_Find q) w
      end
  end.

(** The [Next] loop of [Find]: the context is looked at before every
    item is appended. *)
Fixpoint findLoop (ctx : option error) (docs : list bsonM) (items : list Item)
  : Result (list Item) :=
  match docs with
  | [] => Ok items
  | d :: docs' =>
      match ctx with
      | Some err => Err err
      | None => findLoop ctx docs' (items ++ [newItem (decodeItem d)])%list
      end
  end.

(** [Find] past its first lines, where a limit of zero is set aside:
    the query is built, run and decoded, and the total deduced. *)
Definition findWindow (q : Query) (w : World) : Result ItemList * World :=
  match getQuery q with
  | Err err => (Err err, w)
  | Ok qry =>
      let srt := getSort q in
      match Handler_c w with
      | Some err => (Err err, w)
      | None =>
          let mq := Query_Sort srt (Collection_Find qry) in
          let '(mq, limit) :=
            match q_Window q with
            | Some window => (applyWindow mq window, Limit window)
            | None => (mq, -1)
            end in
          let '((docs, closeErr), w1) := Query_Iter env mq w in
          match findLoop (ctx_err w1) docs [] with
          | Err err => (Err err, w1)
          | Ok items =>
              match closeErr with
              | Some err => (Err err, w1)
              | None =>
                  let n := Z.of_nat (length items) in
                  let total :=
                    if (limit <? 0) || (n <? limit) then
                      match q_Window q with
                      | Some window =>
                          if 0 <? Offset window then
                            if 0 <? n then Offset window + n else -1
                          else n
                      | None => n
                      end
                    else -1 in
                  (Ok {| Total := total; ListLimit := limit; Items := items |},
                   w1)
              end
          end
      end
  end.

(** [Find]. *)
Definition Find (q : Query) (w : World) : Result ItemList * World :=
  match q_Window q with
  | Some window =>
      if Limit window =? 0 then
        let '((n, err), w1) := Count q w in
        match err with
        | Some e => (Err e, w1)
        | None =>
            (Ok {| Total := n; ListLimit := Limit window; Items := [] |}, w1)
        end
      else findWindow q w
  | None => findWindow q w
  end.
End Handler.

(** ** Notions the properties are stated with *)

(** The sub-translations of [translateExpression], named: the list built
    for [$and] and [$or], and the merged document of [$elemMatch]. *)
Fixpoint subPredicates (t : list Expression) (s : list bsonM)
  : Result (list bsonM) :=
  match t with
  | [] => Ok s
  | subExp :: t' =>
      try sb <- translateExpression ∅ subExp;
      subPredicates t' (s ++ [sb])%list
  end.

Fixpoint mergePredicates (t : list Expression) (s : bsonM) : Result bsonM :=
  match t with
  | [] => Ok s
  | subExp :: t' =>
      try sb <- translateExpression ∅ subExp;
      mergePredicates t' (sb ∪ s)
  end.

(** A tree is supported when every node of it is one of the fourteen
    kinds of the operator table. *)
Fixpoint supported (exp : Expression) : bool :=
  match exp with
  | And t => forallb supported t
  | Or t => forallb supported t
  | ElemMatch _ exps => forallb supported exps
  | SubPredicate _ => false
  | OtherExpression _ => false
  | _ => true
  end.

(** Whether one expression translates does not depend on the document
    written into: it succeeds on a supported tree and fails with
    [ErrNotImplemented] on any other. *)
Definition outcome (exp : Expression) : Prop :=
  (supported exp = true ->
   forall b, exists b', translateExpression b exp = Ok b') /\
  (supported exp = false ->
   forall b, translateExpression b exp = Err ErrNotImplemented).

(** The world after a call on which nothing happened. *)
Definition logged (c : Call) (w : World) : World :=
  {| coll := coll w; ctx_err := ctx_err w; handler_err := handler_err w;
     script := script w; calls := (calls w ++ [c])%list |}.

(** The next round trip is not failed by the driver. *)
Definition next_call_succeeds (w : World) : Prop :=
  forall ev, head (script w) = Some ev -> ev_error ev = None.

(** The filter the specification describes: the identifier, and the
    version clause, which asks for an absent [_etag] when the ETag is
    provisional and for an equal one otherwise. *)
Definition versionFilter (id : value) (etag : string) : bsonM :=
  {["_id" := id;
    "_etag" := if String.prefix "p-" etag
               then VDoc {["$exists" := VBool false]}
               else VStr etag]}.

(** The number of stored documents the query by identifier finds. *)
Definition countByID (env : Env) (id : value) (w : World) : Z :=
  Z.of_nat (length (filter (fun d => matches env {["_id" := id]} d = true)
                           (coll w))).

(** What the specification says of a write the store found no document
    for: [ErrNotFound] when no stored document answers the query by
    identifier, [ErrConflict] when one does. *)
Definition disambiguation_as_stated (env : Env) : Prop :=
  forall (item original : Item) (w w1 : World),
    Handler_c w = None ->
    Collection_Update env (versionFilter (ID original) (ETag original))
      (encodeItem (newMongoItem item)) w = (Some MgoErrNotFound, w1) ->
    (countByID env (ID original) w1 = 0 ->
     (Update env item original w).1 = Some ErrNotFound) /\
    (0 < countByID env (ID original) w1 ->
     (Update env item original w).1 = Some ErrConflict).

(** The limit and the offset a query asks for; no window is no limit
    ([-1]) and no offset. *)
Definition requestedLimit (q : Query) : Z :=
  match q_Window q with Some window => Limit window | None => -1 end.

Definition requestedOffset (q : Query) : Z :=
  match q_Window q with Some window => Offset window | None => 0 end.

(** The deduction of the total as the specification words it, [n] being
    the number of items returned: below the limit, or without a limit,
    the total is known unless a positive offset came with no item; at
    the limit it is not. *)
Definition total_rule (q : Query) (l : ItemList) : Prop :=
  let n := Z.of_nat (length (Items l)) in
  (n < requestedLimit q \/ requestedLimit q < 0 ->
   (0 < requestedOffset q -> 0 < n -> Total l = requestedOffset q + n) /\
   (requestedOffset q <= 0 -> Total l = n) /\
   (0 < requestedOffset q -> n = 0 -> Total l = -1)) /\
  (n = requestedLimit q -> Total l = -1).

(** The rule for every list [Find] returns, as the specification has it. *)
Definition total_deduction_as_stated (env : Env) : Prop :=
  forall (q : Query) (w w' : World) (l : ItemList),
    Find env q w = (Ok l, w') -> total_rule q l.

(** The server's ordering rearranges the documents it is given. *)
Definition sort_permutes (env : Env) : Prop :=
  forall fields l, sortDocs env fields l ≡ₚ l.

(** The server's reading of a membership test on the identifier. *)
Definition id_in_law (env : Env) : Prop :=
  forall ids d,
    matches env {["_id" := VDoc {["$in" := VList ids]}]} d = true <->
    docID d ∈ ids.

(** The query [Find] hands to the driver once the filter is translated,
    and the stored documents a filter accepts. *)
Definition findQuery (q : Query) (qry : bsonM) : MgoQuery :=
  let mq := Query_Sort (getSort q) (Collection_Find qry) in
  match q_Window q with
  | Some window => applyWindow mq window
  | None => mq
  end.

Definition matching (env : Env) (qry : bsonM) (c : list bsonM) : list bsonM :=
  filter (fun d => matches env qry d = true) c.

(** The server takes the empty filter for every document. *)
Definition match_all_law (env : Env) : Prop :=
  forall d, matches env ∅ d = true.

(** A payload that does not use the three keys of the stored form. *)
Definition reserved_free (m : bsonM) : Prop :=
  m !! "_id" = None /\ m !! "_etag" = None /\ m !! "_updated" = None.

(** The server's reading of the two filters of [Update] and [Delete] for
    one identifier and one explicit ETag. *)
Definition version_law (env : Env) (id : value) (etag : string) : Prop :=
  (forall d, matches env {["_id" := id; "_etag" := VStr etag]} d = true <->
             d !! "_id" = Some id /\ d !! "_etag" = Some (VStr etag)) /\
  (forall d, matches env {["_id" := id]} d = true <-> d !! "_id" = Some id).

(** The same for the filter built from a provisional ETag, which asks
    for a document without an [_etag] field. *)
Definition provisional_law (env : Env) (id : value) : Prop :=
  (forall d, matches env {["_id" := id;
                           "_etag" := VDoc {["$exists" := VBool false]}]} d = true <->
             d !! "_id" = Some id /\ d !! "_etag" = None) /\
  (forall d, matches env {["_id" := id]} d = true <-> d !! "_id" = Some id).

(** ** A reference environment

    A small server and formatter on which the handler can be run: it
    decides the filter documents made of equalities, [$exists], [$in],
    [$nin], [$ne], the order operators on numbers, strings and times,
    [$and] and [$or]; every other operator matches nothing.  It sorts
    stably, a missing field first. *)

Definition value_compare (a b : value) : option comparison :=
  match a, b with
  | VInt x, VInt y => Some (x ?= y)
  | VTime x, VTime y => Some (x ?= y)
  | VStr x, VStr y => Some (String.compare x y)
  | _, _ => None
  end.

Definition ref_operator (op : string) (arg : value) (field : option value)
  : bool :=
  if decide (op = "$exists") then
    match arg with
    | VBool b => bool_decide (bool_decide (is_Some field) = b)
    | _ => false
    end
  else if decide (op = "$in") then
    match arg with
    | VList l => bool_decide (default VNil field ∈ l)
    | _ => false
    end
  else if decide (op = "$nin") then
    match arg with
    | VList l => bool_decide (default VNil field ∉ l)
    | _ => false
    end
  else if decide (op = "$ne") then bool_decide (field <> Some arg)
  else
    match field with
    | None => false
    | Some v =>
        match value_compare v arg with
        | None => false
        | Some c =>
            if decide (op = "$gt") then bool_decide (c = Gt)
            else if decide (op = "$gte") then bool_decide (c <> Lt)
            else if decide (op = "$lt") then bool_decide (c = Lt)
            else if decide (op = "$lte") then bool_decide (c <> Gt)
            else false
        end
    end.

Definition is_operator_doc (m : bsonM) : bool :=
  bool_decide (m <> ∅) &&
  map_fold (fun k _ acc => acc && String.prefix "$" k) true m.

Fixpoint ref_clause (d : bsonM) (k : string) (v : value) {struct v} : bool :=
  match v with
  | VDocs l =>
      if decide (k = "$and") then
        forallb (fun m =>
                   map_fold (fun k' v' acc => acc && ref_clause d k' v') true m) l
      else if decide (k = "$or") then
        existsb (fun m =>
                   map_fold (fun k' v' acc => acc && ref_clause d k' v') true m) l
      else bool_decide (d !! k = Some v)
  | VDoc ops =>
      if is_operator_doc ops then
        map_fold (fun op arg acc => acc && ref_operator op arg (d !! k)) true ops
      else bool_decide (d !! k = Some v)
  | _ => bool_decide (d !! k = Some v)
  end.

Definition ref_matches (selector d : bsonM) : bool :=
  map_fold (fun k v acc => acc && ref_clause d k v) true selector.

(** The order of two documents under a sort list. *)
Definition field_compare (a b : option value) : comparison :=
  match a, b with
  | None, None => Eq
  | None, Some _ => Lt
  | Some _, None => Gt
  | Some x, Some y => default Eq (value_compare x y)
  end.

Fixpoint ref_compare (fields : list string) (d1 d2 : bsonM) : comparison :=
  match fields with
  | [] => Eq
  | f :: fields' =>
      let c :=
        match f with
        | String "-"%char f' => CompOpp (field_compare (d1 !! f') (d2 !! f'))
        | _ => field_compare (d1 !! f) (d2 !! f)
        end in
      match c with
      | Eq => ref_compare fields' d1 d2
      | _ => c
      end
  end.

Fixpoint insert_sorted (leb : bsonM -> bsonM -> bool) (x : bsonM)
    (l : list bsonM) : list bsonM :=
  match l with
  | [] => [x]
  | y :: l' => if leb x y then x :: l else y :: insert_sorted leb x l'
  end.

Definition ref_sortDocs (fields : list string) (l : list bsonM) : list bsonM :=
  foldr (insert_sorted
           (fun d1 d2 => bool_decide (ref_compare fields d1 d2 <> Gt))) [] l.

Definition ref_Sprint (v : value) : string :=
  match v with
  | VStr s => s
  | VInt z => pretty z
  | VBool true => "true"
  | VBool false => "false"
  | VNil => "<nil>"
  | _ => ""
  end.

Definition ref_env : Env :=
  {| matches := ref_matches; sortDocs := ref_sortDocs; Sprint := ref_Sprint |}.

(** A world in which nothing goes wrong: a live context, no event. *)
Definition quiet (c : list bsonM) : World :=
  {| coll := c; ctx_err := None; handler_err := None; script := [];
     calls := [] |}.

(** ** The inputs of the examples *)

(** The two predicates of the test "and predicates" and "or predicates":
    each operand is itself a predicate, a list of bare expressions. *)
Definition and_of_predicates : Predicate :=
  [And [SubPredicate [Regex "f" {| re_source := "^b??$" |}];
        SubPredicate [Equal "f" (VStr "bar"); Equal "g" (VStr "baz")]]].

Definition or_of_predicates : Predicate :=
  [Or [SubPredicate [Equal "f" (VStr "foo")];
       SubPredicate [Equal "f" (VStr "bar"); Equal "g" (VStr "baz")]]].

(** A stored document and an item with the same identifier, and a world
    whose context is cancelled during the first round trip. *)
Definition stored_1234 : bsonM :=
  {["_id" := VStr "1234"; "_etag" := VStr "etag2"; "_updated" := VTime 1500;
    "foo" := VStr "baz"]}.

Definition item_1234 (etag : string) : Item :=
  {| ID := VStr "1234"; ETag := etag; Updated := 1500;
     Payload := {["id" := VStr "1234"; "foo" := VStr "bar"]} |}.

Definition cancelled_during_first_call (c : list bsonM) : World :=
  {| coll := c; ctx_err := None; handler_err := None;
     script := [ {| ev_error := None; ev_done := Some Canceled |} ];
     calls := [] |}.

(** Documents as [Insert] stores items that carry no ETag. *)
Definition named (id name : string) : bsonM :=
  {["_id" := VStr id; "_etag" := VStr ""; "_updated" := VTime 0;
    "name" := VStr name]}.

(** The query of [TestClearLimit]: the names "c" and "d", by name. *)
Definition name_in_c_d (window : option Window) : Query :=
  {| q_Predicate := [In "name" [VStr "c"; VStr "d"]];
     q_Sort := [ {| Name := "name"; Reversed := false |} ];
     q_Window := window |}.

(** The items of [TestFind], and what a test looks at in a result. *)
Definition person (id name : string) : Item :=
  {| ID := VStr id; ETag := ""; Updated := 0;
     Payload := {["id" := VStr id; "name" := VStr name]} |}.

Definition people : list Item :=
  [person "1" "a"; person "2" "b"; person "3" "c"; person "4" "d";
   person "5" "rest-layer-regexp"; person "6" "f"].

Definition find_summary (predicate : Predicate) (window : option Window)
    (w : World) : option (Z * list string) :=
  match (Find ref_env {| q_Predicate := predicate; q_Sort := [];
                         q_Window := window |} w).1 with
  | Ok l => Some (Total l, map ETag (Items l))
  | Err _ => None
  end.

(** ** The ObjectID validator

    [bson.IsObjectIdHex], [bson.ObjectIdHex] and [ObjectId.Hex] belong to
    the driver; they are modelled from its documentation: a valid text
    has 24 hexadecimal digits of either case, and [Hex] writes the
    twelve bytes in lower case.  An identifier is kept by that text. *)

Definition is_hex_digit (c : ascii) : bool :=
  let n := nat_of_ascii c in
  ((48 <=? n) && (n <=? 57) || (97 <=? n) && (n <=? 102) ||
   (65 <=? n) && (n <=? 70))%nat.

Definition lower_hex_digit (c : ascii) : ascii :=
  let n := nat_of_ascii c in
  if ((65 <=? n) && (n <=? 70))%nat then ascii_of_nat (n + 32) else c.

Fixpoint string_map (f : ascii -> ascii) (s : string) : string :=
  match s with
  | EmptyString => EmptyString
  | String c s' => String (f c) (string_map f s')
  end.

Fixpoint string_forallb (f : ascii -> bool) (s : string) : bool :=
  match s with
  | EmptyString => true
  | String c s' => f c && string_forallb f s'
  end.

Definition IsObjectIdHex (s : string) : bool :=
  (String.length s =? 24)%nat && string_forallb is_hex_digit s.

Definition ObjectIdHex (s : string) : value :=
  VObjectId (string_map lower_hex_digit s).

(** [ObjectID.Validate]. *)
Definition ObjectID_Validate (v : value) : Result value :=
  match v with
  | VStr s =>
      if negb (String.length s =? 24)%nat
      then Err (OtherError "invalid object id length")
      else if negb (IsObjectIdHex s) then Err (OtherError "invalid object id")
      else Ok (ObjectIdHex s)
  | _ => Err (OtherError "invalid object id")
  end.

(** [ObjectID.Serialize]. *)
Definition ObjectID_Serialize (v : value) : Result value :=
  match v with
  | VObjectId hex => Ok (VStr hex)
  | _ => Err (OtherError "not an ObjectId")
  end.

(** A well-formed identifier: the text [Hex] gives for twelve bytes. *)
Definition is_lower_hex_digit (c : ascii) : bool :=
  let n := nat_of_ascii c in
  ((48 <=? n) && (n <=? 57) || (97 <=? n) && (n <=? 102))%nat.

Definition well_formed_hex (h : string) : bool :=
  (String.length h =? 24)%nat && string_forallb is_lower_hex_digit h.

(** * Properties *)

(** ** Query translation *)

Lemma Expression_nested_ind (P : Expression -> Prop) :
  (forall t, Forall P t -> P (And t)) ->
  (forall t, Forall P t -> P (Or t)) ->
  (forall f t, Forall P t -> P (ElemMatch f t)) ->
  (forall exp,
      match exp with
      | And _ | Or _ | ElemMatch _ _ => True
      | _ => P exp
      end) ->
  forall exp, P exp.
Proof.
  intros HAnd HOr HElem HLeaf.
  fix IH 1. intros exp.
  destruct exp as [t|t|f t| | | | | | | | | | | | |];
    try (match goal with |- P ?e => exact (HLeaf e) end).
  - apply HAnd. induction t as [|e t IHt]; constructor; [apply IH|apply IHt].
  - apply HOr. induction t as [|e t IHt]; constructor; [apply IH|apply IHt].
  - apply HElem. induction t as [|e t IHt]; constructor; [apply IH|apply IHt].
Qed.

Lemma translateExpression_And b t :
  translateExpression b (And t) =
  try s <- subPredicates t []; Ok (<["$and" := VDocs s]> b).
Proof. reflexivity. Qed.

Lemma translateExpression_Or b t :
  translateExpression b (Or t) =
  try s <- subPredicates t []; Ok (<["$or" := VDocs s]> b).
Proof. reflexivity. Qed.

Lemma translateExpression_ElemMatch b f t :
  translateExpression b (ElemMatch f t) =
  try s <- mergePredicates t ∅;
  Ok (<[getField f := VDoc {["$elemMatch" := VDoc s]}]> b).
Proof. reflexivity. Qed.

(** The recursive call of the source, on a one-element predicate. *)
Lemma translatePredicate_singleton exp :
  translatePredicate [exp] = translateExpression ∅ exp.
Proof.
  unfold translatePredicate. simpl. by destruct (translateExpression ∅ exp).
Qed.

(** The same induction serves the list of [$and] and [$or] and the
    merged document of [$elemMatch]. *)
Ltac operands_outcome :=
  induction 1 as [|e t [Hok Hko] _ [IHok IHko]]; simpl;
  [ split; [eauto|done]
  | split;
    [ intros [He Ht]%andb_true_iff s;
      destruct (Hok He ∅) as [sb ->]; simpl; by apply IHok
    | intros Hs s; destruct (supported e) eqn:He;
      [ destruct (Hok eq_refl ∅) as [sb ->]; simpl; by apply IHko
      | by rewrite (Hko eq_refl ∅) ] ] ].

Lemma subPredicates_outcome t :
  Forall outcome t ->
  (forallb supported t = true -> forall s, exists s', subPredicates t s = Ok s') /\
  (forallb supported t = false ->
   forall s, subPredicates t s = Err ErrNotImplemented).
Proof. operands_outcome. Qed.

Lemma mergePredicates_outcome t :
  Forall outcome t ->
  (forallb supported t = true -> forall s, exists s', mergePredicates t s = Ok s') /\
  (forallb supported t = false ->
   forall s, mergePredicates t s = Err ErrNotImplemented).
Proof. operands_outcome. Qed.

Lemma translateExpression_outcome exp : outcome exp.
Proof.
  revert exp. apply Expression_nested_ind.
  - intros t IH. destruct (subPredicates_outcome t IH) as [Hok Hko].
    split; intros Hs b; rewrite translateExpression_And.
    + destruct (Hok Hs []) as [s' ->]. simpl. eauto.
    + by rewrite (Hko Hs).
  - intros t IH. destruct (subPredicates_outcome t IH) as [Hok Hko].
    split; intros Hs b; rewrite translateExpression_Or.
    + destruct (Hok Hs []) as [s' ->]. simpl. eauto.
    + by rewrite (Hko Hs).
  - intros f t IH. destruct (mergePredicates_outcome t IH) as [Hok Hko].
    split; intros Hs b; rewrite translateExpression_ElemMatch.
    + destruct (Hok Hs ∅) as [s' ->]. simpl. eauto.
    + by rewrite (Hko Hs).
  - intros exp.
    destruct exp; try exact I; split; intros Hs b; simpl in *; eauto; done.
Qed.

Lemma translateLoop_outcome q :
  (forallb supported q = true -> forall b, exists b', translateLoop q b = Ok b') /\
  (forallb supported q = false ->
   forall b, translateLoop q b = Err ErrNotImplemented).
Proof.
  induction q as [|e q [IHok IHko]]; simpl.
  - split; [eauto|done].
  - destruct (translateExpression_outcome e) as [Hok Hko]. split.
    + intros [He Hq]%andb_true_iff b.
      destruct (Hok He b) as [b' ->]. simpl. by apply IHok.
    + intros Hs b. destruct (supported e) eqn:He.
      * destruct (Hok eq_refl b) as [b' ->]. simpl. by apply IHko.
      * by rewrite (Hko eq_refl b).
Qed.

(** C5.  A predicate all of whose nodes are of supported kinds
    translates; a predicate with a node of any other kind anywhere in it,
    also below [And], [Or] or [ElemMatch], makes the translation fail
    with [ErrNotImplemented] and yields no filter document at all. *)
Theorem unsupported_aborts_translation (q : Predicate) :
  (forallb supported q = true -> exists b, translatePredicate q = Ok b) /\
  (forallb supported q = false ->
   translatePredicate q = Err ErrNotImplemented).
Proof.
  destruct (translateLoop_outcome q) as [Hok Hko].
  split; intros Hs; [apply Hok|apply Hko]; done.
Qed.

Lemma unsupported_aborts_translation_witness :
  forallb supported [And [Equal "f" (VInt 1); OtherExpression "Unsupported"]]
    = false /\
  translatePredicate [And [Equal "f" (VInt 1); OtherExpression "Unsupported"]]
    = Err ErrNotImplemented.
Proof.
  split; [reflexivity|].
  apply (unsupported_aborts_translation
           [And [Equal "f" (VInt 1); OtherExpression "Unsupported"]]).
  reflexivity.
Defined.

(** Within one predicate a later expression on a field takes the place
    of an earlier one on the same field: both write [b[field]]. *)
Example same_field_overwrites :
  translatePredicate [GreaterThan "f" (VInt 1); LowerThan "f" (VInt 5)]
  = Ok {["f" := VDoc {["$lt" := VInt 5]}]}.
Proof. vm_compute. reflexivity. Qed.

(** C8.  A single comparison on a field translates to one entry under
    the field's name, "id" becoming "_id" and every other name staying
    as it is: the bare value for [Equal], and for the other kinds a
    one-key document holding the native operator and the value, the
    value list or the flag, untouched.  A [Regex] gives [$regex] with
    the text of the compiled pattern, and that key alone. *)
Theorem comparison_operator_table
    (f : string) (v : value) (vs : list value) (re : Regexp) :
  let k := if decide (f = "id") then "_id" else f in
  translatePredicate [Equal f v] = Ok {[k := v]} /\
  translatePredicate [NotEqual f v] = Ok {[k := VDoc {["$ne" := v]}]} /\
  translatePredicate [GreaterThan f v] = Ok {[k := VDoc {["$gt" := v]}]} /\
  translatePredicate [GreaterOrEqual f v] = Ok {[k := VDoc {["$gte" := v]}]} /\
  translatePredicate [LowerThan f v] = Ok {[k := VDoc {["$lt" := v]}]} /\
  translatePredicate [LowerOrEqual f v] = Ok {[k := VDoc {["$lte" := v]}]} /\
  translatePredicate [In f vs] = Ok {[k := VDoc {["$in" := VList vs]}]} /\
  translatePredicate [NotIn f vs] = Ok {[k := VDoc {["$nin" := VList vs]}]} /\
  translatePredicate [Exist f] = Ok {[k := VDoc {["$exists" := VBool true]}]} /\
  translatePredicate [NotExist f] =
    Ok {[k := VDoc {["$exists" := VBool false]}]} /\
  translatePredicate [Regex f re] =
    Ok {[k := VDoc {["$regex" := VStr (re_source re)]}]}.
Proof.
  intros k. unfold translatePredicate. simpl.
  fold (getField f). fold k.
  rewrite !insert_empty. repeat split; reflexivity.
Qed.

(** C4.  What the code does with an operand that is a list of bare
    expressions: the type switch has no case for it, so the translation
    of the enclosing [And] or [Or] fails with [ErrNotImplemented], where
    the tests of the package expect the operand collapsed into one
    document ([{"f": "bar", "g": "baz"}]) inside the [$and] or [$or]
    list. *)
Theorem predicate_operand_not_collapsed :
  translatePredicate and_of_predicates = Err ErrNotImplemented /\
  translatePredicate or_of_predicates = Err ErrNotImplemented /\
  translatePredicate and_of_predicates <>
    Ok {["$and" := VDocs [ {["f" := VDoc {["$regex" := VStr "^b??$"]}]};
                           {["f" := VStr "bar"; "g" := VStr "baz"]} ]]} /\
  translatePredicate or_of_predicates <>
    Ok {["$or" := VDocs [ {["f" := VStr "foo"]};
                          {["f" := VStr "bar"; "g" := VStr "baz"]} ]]}.
Proof. repeat split; try reflexivity; discriminate. Qed.

(** C9.  An empty sort list gives the one ascending entry "_id"; any
    other list gives a list of the same length whose entry at every
    position is the field's name, "id" rewritten to "_id", with "-" in
    front when the field is reversed. *)
Theorem sort_translation (q : Query) :
  (q_Sort q = [] -> getSort q = ["_id"]) /\
  (q_Sort q <> [] ->
   length (getSort q) = length (q_Sort q) /\
   forall (i : nat) (sf : SortField),
     q_Sort q !! i = Some sf ->
     getSort q !! i =
       Some ((if Reversed sf then "-" else "") +:+
             (if decide (Name sf = "id") then "_id" else Name sf))).
Proof.
  unfold getSort. split.
  - intros ->. reflexivity.
  - intros Hne. destruct (decide _) as [H0|_].
    + by apply length_zero_iff_nil in H0.
    + split; [apply length_map|].
      intros i sf Hi. rewrite list_lookup_fmap, Hi. simpl.
      unfold getField. by destruct (Reversed sf).
Qed.

Lemma sort_translation_witness :
  let q := {| q_Predicate := [];
              q_Sort := [ {| Name := "f"; Reversed := false |};
                          {| Name := "id"; Reversed := true |} ];
              q_Window := None |} in
  q_Sort q <> [] /\
  length (getSort q) = 2%nat /\
  getSort q !! 1%nat = Some "-_id".
Proof.
  intros q. split; [discriminate|].
  destruct (sort_translation q) as [_ H].
  destruct (H ltac:(discriminate)) as [Hlen Hat].
  split; [exact Hlen|].
  exact (Hat 1%nat {| Name := "id"; Reversed := true |} eq_refl).
Defined.

(** ** The item codec *)

Lemma insert_id_filter (x : value) (m : bsonM) :
  <["id" := x]> (filter (fun kv => kv.1 <> "id") m) = <["id" := x]> m.
Proof.
  apply map_eq. intros k. destruct (decide (k = "id")) as [->|Hk].
  - by rewrite !lookup_insert_eq.
  - rewrite !lookup_insert_ne by done.
    destruct (m !! k) as [v|] eqn:E.
    + by apply map_lookup_filter_Some.
    + apply map_lookup_filter_None. left. done.
Qed.

Lemma newMongoItem_payload (i : Item) :
  mPayload (newMongoItem i) !! "id" = None.
Proof.
  simpl. apply map_lookup_filter_None. right. intros v _ H. by apply H.
Qed.

(** C7.  Encoding an item whose ETag is not empty and decoding it again
    gives the same ID, ETag and Updated, and the payload with the
    identifier under "id"; the payload in between has no "id" key. *)
Theorem item_round_trip (env : Env) (i : Item) :
  ETag i <> "" ->
  newItem env (newMongoItem i) =
    {| ID := ID i; ETag := ETag i; Updated := Updated i;
       Payload := <["id" := ID i]> (Payload i) |} /\
  mPayload (newMongoItem i) !! "id" = None.
Proof.
  intros Hetag. split; [|apply newMongoItem_payload].
  unfold newItem. simpl. rewrite insert_id_filter.
  by destruct (decide (ETag i = "")).
Qed.

Lemma item_round_trip_witness :
  let i := {| ID := VStr "1234"; ETag := "etag"; Updated := 1500;
              Payload := {["id" := VStr "1234"; "foo" := VStr "bar"]} |} in
  ETag i <> "" /\ newItem ref_env (newMongoItem i) = i.
Proof.
  intros i. split; [discriminate|].
  destruct (item_round_trip ref_env i ltac:(discriminate)) as [-> _].
  vm_compute. reflexivity.
Defined.


(** Between the two, the bson document: a [mongoItem] whose payload has
    none of the three reserved keys comes back from its encoding. *)
Lemma stored_round_trip (m : mongoItem) :
  mPayload m !! "_id" = None ->
  mPayload m !! "_etag" = None ->
  mPayload m !! "_updated" = None ->
  decodeItem (encodeItem m) = m.
Proof.
  destruct m as [id etag updated payload]. simpl. intros H1 H2 H3.
  unfold decodeItem, encodeItem. simpl.
  rewrite lookup_insert_eq. simpl.
  rewrite lookup_insert_ne, lookup_insert_eq by done.
  do 2 (rewrite lookup_insert_ne by done). rewrite lookup_insert_eq.
  f_equal. apply map_eq. intros k.
  destruct (decide (k = "_id")) as [->|?];
    [by rewrite lookup_delete_eq|rewrite lookup_delete_ne by done].
  destruct (decide (k = "_etag")) as [->|?];
    [by rewrite lookup_delete_eq|rewrite lookup_delete_ne by done].
  destruct (decide (k = "_updated")) as [->|?];
    [by rewrite lookup_delete_eq|rewrite lookup_delete_ne by done].
  by rewrite !lookup_insert_ne.
Qed.

(** ** The handler: round trips *)

Lemma roundTrip_quiet c w : script w = [] -> roundTrip c w = (None, logged c w).
Proof. unfold roundTrip, logged. by intros ->. Qed.

Lemma roundTrip_calls c w : calls (roundTrip c w).2 = (calls w ++ [c])%list.
Proof. unfold roundTrip. by destruct (script w). Qed.

Lemma roundTrip_coll c w : coll (roundTrip c w).2 = coll w.
Proof. unfold roundTrip. by destruct (script w). Qed.

Lemma roundTrip_succeeds c w :
  next_call_succeeds w -> (roundTrip c w).1 = None.
Proof.
  unfold roundTrip, next_call_succeeds. destruct (script w) as [|ev rest]; simpl.
  - done.
  - intros H. by apply H.
Qed.

Lemma roundTrip_ctx_done c w e :
  ctx_err w = Some e -> ctx_err (roundTrip c w).2 = Some e.
Proof. unfold roundTrip. intros H. destruct (script w); simpl; by rewrite ?H. Qed.

Lemma Handler_c_live w : Handler_c w = None -> ctx_err w = None.
Proof. unfold Handler_c. by destruct (ctx_err w). Qed.

(** ** Insert *)

(** C10.  When the context has ended by the time the insert round trip
    is over, [Insert] returns the context's error, whatever the store
    answered: no error, a duplicate key (which would have become
    [ErrConflict]) or any other error. *)
Theorem insert_context_error_wins
    (items : list Item) (w w1 : World) (storeErr : option error) (cerr : error) :
  Handler_c w = None ->
  Collection_Insert (map (fun item => encodeItem (newMongoItem item)) items) w
    = (storeErr, w1) ->
  ctx_err w1 = Some cerr ->
  Insert items w = (Some cerr, w1).
Proof.
  intros Hc Hins Hctx. unfold Insert. rewrite Hc, Hins. by rewrite Hctx.
Qed.

Lemma insert_context_error_wins_witness :
  let w := cancelled_during_first_call [stored_1234] in
  let docs := [encodeItem (newMongoItem (item_1234 "etag1"))] in
  let w1 := {| coll := [stored_1234]; ctx_err := Some Canceled;
               handler_err := None; script := [];
               calls := [CallInsert docs] |} in
  Handler_c w = None /\
  Collection_Insert docs w = (Some MgoDuplicateKey, w1) /\
  ctx_err w1 = Some Canceled /\
  Insert [item_1234 "etag1"] w = (Some Canceled, w1).
Proof.
  intros w docs w1.
  assert (Hins : Collection_Insert docs w = (Some MgoDuplicateKey, w1))
    by (vm_compute; reflexivity).
  split; [reflexivity|]. split; [exact Hins|]. split; [reflexivity|].
  exact (insert_context_error_wins [item_1234 "etag1"] w w1
           (Some MgoDuplicateKey) Canceled eq_refl Hins eq_refl).
Defined.

(** The same cancellation on an empty collection: the item is stored,
    and the caller is told [Canceled]. *)
Example insert_stored_yet_cancelled :
  let w := cancelled_during_first_call [] in
  let doc := encodeItem (newMongoItem (item_1234 "etag1")) in
  Insert [item_1234 "etag1"] w =
    (Some Canceled,
     {| coll := [doc]; ctx_err := Some Canceled; handler_err := None;
        script := []; calls := [CallInsert [doc]] |}).
Proof. vm_compute. reflexivity. Qed.

(** ** Update and Delete *)

Lemma update_selector (id : value) (etag : string) :
  (if String.prefix "p-" etag
   then <["_etag" := VDoc {["$exists" := VBool false]}]> ({["_id" := id]} : bsonM)
   else <["_etag" := VStr etag]> {["_id" := id]})
  = versionFilter id etag.
Proof.
  unfold versionFilter.
  destruct (String.prefix "p-" etag);
    rewrite <- !insert_empty; by apply insert_insert_ne.
Qed.

Lemma set_coll_calls c w : calls (set_coll c w) = calls w.
Proof. reflexivity. Qed.

Lemma Collection_Update_calls env sel doc w :
  calls (Collection_Update env sel doc w).2 = (calls w ++ [CallUpdate sel doc])%list.
Proof.
  unfold Collection_Update.
  pose proof (roundTrip_calls (CallUpdate sel doc) w) as H.
  destruct (roundTrip (CallUpdate sel doc) w) as [[e|] w1]; simpl in *; [done|].
  by destruct (replaceFirst _ _ _).
Qed.

Lemma Collection_Remove_calls env sel w :
  calls (Collection_Remove env sel w).2 = (calls w ++ [CallRemove sel])%list.
Proof.
  unfold Collection_Remove.
  pose proof (roundTrip_calls (CallRemove sel) w) as H.
  destruct (roundTrip (CallRemove sel) w) as [[e|] w1]; simpl in *; [done|].
  by destruct (removeFirst _ _).
Qed.

Lemma Query_Count_calls env mq w :
  calls (Query_Count env mq w).2 = (calls w ++ [CallCount mq])%list.
Proof.
  unfold Query_Count.
  pose proof (roundTrip_calls (CallCount mq) w) as H.
  by destruct (roundTrip (CallCount mq) w) as [[e|] w1].
Qed.

(** A count the driver does not fail. *)
Lemma Query_Count_succeeds env mq w :
  next_call_succeeds w ->
  Query_Count env mq w =
    ((Z.of_nat (length (counted env mq (coll w))), None),
     (roundTrip (CallCount mq) w).2).
Proof.
  intros H. unfold Query_Count.
  pose proof (roundTrip_succeeds (CallCount mq) w H) as Hr.
  pose proof (roundTrip_coll (CallCount mq) w) as Hcoll.
  destruct (roundTrip (CallCount mq) w) as [failure w1]. simpl in *.
  by rewrite Hr, Hcoll.
Qed.

Lemma afterWrite_calls env id r :
  exists rest, calls (afterWrite env id r).2 = (calls r.2 ++ rest)%list.
Proof.
  destruct r as [err w1]. unfold afterWrite. destruct (decide _) as [_|_].
  - pose proof (Query_Count_calls env (Collection_FindId id) w1) as H.
    destruct (Query_Count env (Collection_FindId id) w1) as [[n [cerr|]] w2];
      simpl in *; [eauto|].
    destruct (n =? 0); [eauto|]. destruct (ctx_err w2); eauto.
  - exists []. simpl. by rewrite app_nil_r.
Qed.

(** What [afterWrite] makes of a write the store found no document for,
    when the driver does not fail the query by identifier. *)
Lemma afterWrite_not_found env id w1 :
  next_call_succeeds w1 ->
  let w2 := (roundTrip (CallCount (Collection_FindId id)) w1).2 in
  afterWrite env id (Some MgoErrNotFound, w1) =
    (Some (if countByID env id w1 =? 0 then ErrNotFound
           else match ctx_err w2 with
                | Some cerr => cerr
                | None => ErrConflict
                end), w2).
Proof.
  intros Hok w2. unfold afterWrite.
  destruct (decide (Some MgoErrNotFound = Some MgoErrNotFound)); [|done].
  rewrite (Query_Count_succeeds env _ w1 Hok). fold w2.
  change (Z.of_nat (length (counted env (Collection_FindId id) (coll w1))))
    with (countByID env id w1).
  destruct (countByID env id w1 =? 0); [done|]. by destruct (ctx_err w2).
Qed.

(** When the query by identifier fails, its error is what comes back. *)
Lemma afterWrite_count_error env id w1 w2 n e :
  Query_Count env (Collection_FindId id) w1 = ((n, Some e), w2) ->
  afterWrite env id (Some MgoErrNotFound, w1) = (Some e, w2).
Proof.
  intros Hcount. unfold afterWrite.
  destruct (decide (Some MgoErrNotFound = Some MgoErrNotFound)); [|done].
  by rewrite Hcount.
Qed.

(** C1, amended.  With a session at hand, the write [Update] and
    [Delete] send carries the filter made of the identifier and the
    version clause.  When the store finds no document for it and the
    driver does not fail the query by identifier that follows, the
    result is [ErrNotFound] if no stored document has the identifier;
    if one has, it is [ErrConflict] while the context is live and the
    context's error once it has ended. *)
Theorem update_delete_version_match
    (env : Env) (item original : Item) (w w1 : World) :
  Handler_c w = None ->
  next_call_succeeds w1 ->
  let sel := versionFilter (ID original) (ETag original) in
  let doc := encodeItem (newMongoItem item) in
  let w2 := (roundTrip (CallCount (Collection_FindId (ID original))) w1).2 in
  let verdict :=
    Some (if countByID env (ID original) w1 =? 0 then ErrNotFound
          else match ctx_err w2 with
               | Some cerr => cerr
               | None => ErrConflict
               end) in
  (exists rest,
     calls (Update env item original w).2
       = (calls w ++ CallUpdate sel doc :: rest)%list) /\
  (exists rest,
     calls (Delete env original w).2 = (calls w ++ CallRemove sel :: rest)%list) /\
  (Collection_Update env sel doc w = (Some MgoErrNotFound, w1) ->
   Update env item original w = (verdict, w2)) /\
  (Collection_Remove env sel w = (Some MgoErrNotFound, w1) ->
   Delete env original w = (verdict, w2)).
Proof.
  intros Hc Hok sel doc w2 verdict. unfold Update, Delete.
  rewrite Hc, !update_selector. fold sel doc.
  split; [|split; [|split]].
  - destruct (afterWrite_calls env (ID original)
                (Collection_Update env sel doc w)) as [rest ->].
    rewrite Collection_Update_calls. exists rest. by rewrite <- app_assoc.
  - destruct (afterWrite_calls env (ID original)
                (Collection_Remove env sel w)) as [rest ->].
    rewrite Collection_Remove_calls. exists rest. by rewrite <- app_assoc.
  - intros ->. by apply afterWrite_not_found.
  - intros ->. by apply afterWrite_not_found.
Qed.

Lemma update_delete_version_match_witness :
  let w := quiet [stored_1234] in
  let w1 := logged (CallUpdate (versionFilter (VStr "1234") "etag1")
                      (encodeItem (newMongoItem (item_1234 "etag3")))) w in
  let w2 := logged (CallCount (Collection_FindId (VStr "1234"))) w1 in
  Handler_c w = None /\
  next_call_succeeds w1 /\
  Collection_Update ref_env (versionFilter (VStr "1234") "etag1")
    (encodeItem (newMongoItem (item_1234 "etag3"))) w
    = (Some MgoErrNotFound, w1) /\
  Update ref_env (item_1234 "etag3") (item_1234 "etag1") w
    = (Some ErrConflict, w2).
Proof.
  intros w w1 w2.
  assert (Hok : next_call_succeeds w1) by (intros ev; discriminate).
  assert (Hupd : Collection_Update ref_env (versionFilter (VStr "1234") "etag1")
                   (encodeItem (newMongoItem (item_1234 "etag3"))) w
                 = (Some MgoErrNotFound, w1)) by (vm_compute; reflexivity).
  split; [reflexivity|]. split; [exact Hok|]. split; [exact Hupd|].
  rewrite (proj1 (proj2 (proj2
             (update_delete_version_match ref_env (item_1234 "etag3")
                (item_1234 "etag1") w w1 eq_refl Hok))) Hupd).
  vm_compute. reflexivity.
Defined.

(** The claim as worded fails when the context ends while [Update] is
    under way: a stored document has the identifier and another ETag,
    the store finds none for the filter, and the caller gets [Canceled],
    not [ErrConflict]. *)
Lemma conflict_hidden_by_ended_context :
  let w := cancelled_during_first_call [stored_1234] in
  let item := item_1234 "etag3" in
  let original := item_1234 "etag1" in
  let w1 := {| coll := [stored_1234]; ctx_err := Some Canceled;
               handler_err := None; script := [];
               calls := [CallUpdate (versionFilter (VStr "1234") "etag1")
                           (encodeItem (newMongoItem item))] |} in
  Handler_c w = None /\
  Collection_Update ref_env (versionFilter (ID original) (ETag original))
    (encodeItem (newMongoItem item)) w = (Some MgoErrNotFound, w1) /\
  countByID ref_env (ID original) w1 = 1 /\
  (Update ref_env item original w).1 = Some Canceled /\
  ~ disambiguation_as_stated ref_env.
Proof.
  intros w item original w1.
  assert (Hc : Handler_c w = None) by (vm_compute; reflexivity).
  assert (Hupd : Collection_Update ref_env
                   (versionFilter (ID original) (ETag original))
                   (encodeItem (newMongoItem item)) w
                 = (Some MgoErrNotFound, w1)) by (vm_compute; reflexivity).
  assert (Hone : countByID ref_env (ID original) w1 = 1)
    by (vm_compute; reflexivity).
  assert (Hres : (Update ref_env item original w).1 = Some Canceled)
    by (vm_compute; reflexivity).
  repeat split; try assumption.
  intros H.
  pose proof (proj2 (H item original w w1 Hc Hupd)) as Hconflict.
  rewrite Hone, Hres in Hconflict.
  specialize (Hconflict eq_refl). discriminate.
Qed.

(** ** Find *)

Lemma findLoop_live env docs items :
  findLoop env None docs items =
  Ok (items ++ map (fun d => newItem env (decodeItem d)) docs)%list.
Proof.
  revert items. induction docs as [|d docs IH]; intros items; simpl.
  - by rewrite app_nil_r.
  - rewrite IH. by rewrite <- app_assoc.
Qed.

Lemma findLoop_ended env cerr docs items r :
  findLoop env (Some cerr) docs items = Ok r -> docs = [] /\ r = items.
Proof. destruct docs; simpl; [by intros [= ->]|done]. Qed.

Lemma Query_Iter_quiet env mq w :
  script w = [] ->
  Query_Iter env mq w = ((cursor env mq (coll w), None), logged (CallIter mq) w).
Proof. intros H. unfold Query_Iter. by rewrite roundTrip_quiet. Qed.

(** The total [findWindow] gives is the one of the rule whenever the
    limit is not zero. *)
Lemma findWindow_total env q w w' l :
  requestedLimit q <> 0 ->
  findWindow env q w = (Ok l, w') -> total_rule q l.
Proof.
  unfold findWindow, total_rule, requestedLimit, requestedOffset.
  intros Hlimit Hfind.
  destruct (getQuery q) as [qry|]; [|done].
  destruct (Handler_c w); [done|].
  destruct (q_Window q) as [[offset limit]|]; simpl in *.
  - destruct (Query_Iter _ _ _) as [[docs closeErr] w1].
    destruct (findLoop _ _ _ _) as [items|]; [|done].
    destruct closeErr; [done|]. injection Hfind as <- _. simpl.
    destruct (limit <? 0) eqn:E1; destruct (Z.of_nat (length items) <? limit) eqn:E2;
      destruct (0 <? offset) eqn:E3;
      destruct (0 <? Z.of_nat (length items)) eqn:E4; simpl; lia.
  - destruct (Query_Iter _ _ _) as [[docs closeErr] w1].
    destruct (findLoop _ _ _ _) as [items|]; [|done].
    destruct closeErr; [done|]. injection Hfind as <- _. simpl. lia.
Qed.

(** C3, amended.  For a query whose limit is not zero, the list [Find]
    returns has its total deduced by the rule.  In particular, with
    offset 0 and limit 1 on a collection in which two documents satisfy
    the filter, one item comes back and the total is [-1]. *)
Theorem find_total_deduction (env : Env) (q : Query) (w : World) :
  requestedLimit q <> 0 ->
  (forall l w', Find env q w = (Ok l, w') -> total_rule q l) /\
  (forall qry,
     sort_permutes env ->
     q_Window q = Some {| Offset := 0; Limit := 1 |} ->
     getQuery q = Ok qry ->
     Handler_c w = None ->
     script w = [] ->
     length (filter (fun d => matches env qry d = true) (coll w)) = 2%nat ->
     exists item w',
       Find env q w =
         (Ok {| Total := -1; ListLimit := 1; Items := [item] |}, w')).
Proof.
  intros Hlimit. split.
  - intros l w' Hfind. apply (findWindow_total env q w w' l Hlimit).
    unfold Find in Hfind. unfold requestedLimit in Hlimit.
    destruct (q_Window q) as [window|]; [|done].
    destruct (Limit window =? 0) eqn:E; [lia|done].
  - intros qry Hsort Hwin Hqry Hc Hquiet Htwo.
    unfold Find, findWindow. rewrite Hwin, Hqry, Hc. simpl.
    rewrite Query_Iter_quiet by done. simpl.
    unfold cursor, applyWindow. simpl. rewrite map_id.
    pose proof (Permutation_length
                  (Hsort (getSort q)
                     (filter (fun d => matches env qry d = true) (coll w)))) as Hlen.
    rewrite Htwo in Hlen.
    destruct (sortDocs env (getSort q)
                (filter (fun d => matches env qry d = true) (coll w)))
      as [|d1 [|d2 [|d3 rest]]]; try done.
    simpl. rewrite (Handler_c_live w Hc). simpl. eauto.
Qed.

(** *** The reference environment and a small collection *)

Lemma insert_sorted_perm leb x l : insert_sorted leb x l ≡ₚ x :: l.
Proof.
  induction l as [|y l IH]; simpl; [done|].
  destruct (leb x y); [done|]. rewrite IH. apply Permutation_swap.
Qed.

Lemma ref_sort_permutes : sort_permutes ref_env.
Proof.
  intros fields l. simpl. unfold ref_sortDocs.
  induction l as [|x l IH]; simpl; [done|].
  by rewrite insert_sorted_perm, IH.
Qed.

Lemma find_total_deduction_witness :
  let q := name_in_c_d (Some {| Offset := 0; Limit := 1 |}) in
  let w := quiet [named "1" "a"; named "3" "d"; named "4" "c"] in
  let qry : bsonM := {["name" := VDoc {["$in" := VList [VStr "c"; VStr "d"]]}]} in
  requestedLimit q <> 0 /\
  sort_permutes ref_env /\
  getQuery q = Ok qry /\
  Handler_c w = None /\
  length (filter (fun d => matches ref_env qry d = true) (coll w)) = 2%nat /\
  exists item w',
    Find ref_env q w = (Ok {| Total := -1; ListLimit := 1; Items := [item] |}, w').
Proof.
  intros q w qry.
  assert (Hlimit : requestedLimit q <> 0) by discriminate.
  assert (Hqry : getQuery q = Ok qry) by (vm_compute; reflexivity).
  assert (Htwo : length (filter (fun d => matches ref_env qry d = true) (coll w))
                 = 2%nat) by (vm_compute; reflexivity).
  split; [exact Hlimit|]. split; [exact ref_sort_permutes|].
  split; [exact Hqry|]. split; [reflexivity|]. split; [exact Htwo|].
  exact (proj2 (find_total_deduction ref_env q w Hlimit) qry
           ref_sort_permutes eq_refl Hqry eq_refl eq_refl Htwo).
Defined.

(** The rule as worded fails for a limit of zero: no item is returned,
    which is as many as the limit asks for, and the total is the count
    of the matching documents, not [-1]. *)
Lemma zero_limit_total_is_counted :
  let q := {| q_Predicate := []; q_Sort := [];
              q_Window := Some {| Offset := 0; Limit := 0 |} |} in
  let w := quiet [stored_1234] in
  let l := {| Total := 1; ListLimit := 0; Items := [] |} in
  Find ref_env q w = (Ok l, logged (CallCount (Collection_Find ∅)) w) /\
  Z.of_nat (length (Items l)) = requestedLimit q /\
  Total l <> -1 /\
  ~ total_deduction_as_stated ref_env.
Proof.
  intros q w l.
  assert (Hfind : Find ref_env q w =
                  (Ok l, logged (CallCount (Collection_Find ∅)) w))
    by (vm_compute; reflexivity).
  repeat split; try assumption; try discriminate.
  intros H. destruct (H q w _ _ Hfind) as [_ Hat_limit].
  specialize (Hat_limit eq_refl). discriminate.
Qed.

(** [Find] with a limit of zero: one count, of a query without window,
    and no item. *)
Lemma find_zero_limit (env : Env) (q : Query) (w : World) window qry :
  q_Window q = Some window ->
  Limit window = 0 ->
  getQuery q = Ok qry ->
  Handler_c w = None ->
  next_call_succeeds w ->
  Find env q w =
    (Ok {| Total := Z.of_nat (length (filter (fun d => matches env qry d = true)
                                              (coll w)));
           ListLimit := 0; Items := [] |},
     (roundTrip (CallCount (Collection_Find qry)) w).2).
Proof.
  intros Hwin Hzero Hqry Hc Hok. unfold Find, Count.
  rewrite Hwin, Hzero, Hqry, Hc. simpl.
  by rewrite Query_Count_succeeds.
Qed.

(** ** Clear *)


Lemma selectDoc_docID d :
  docID (selectDoc (Some {["_id" := VInt 1]}) d) = docID d.
Proof.
  unfold docID, selectDoc. f_equal.
  destruct (d !! "_id") as [v|] eqn:E.
  - apply map_lookup_filter_Some. split; [done|]. simpl. set_solver.
  - apply map_lookup_filter_None. by left.
Qed.

Lemma Query_Iter_succeeds env mq w :
  next_call_succeeds w ->
  Query_Iter env mq w =
    ((cursor env mq (coll w), None), (roundTrip (CallIter mq) w).2).
Proof.
  intros H. unfold Query_Iter.
  pose proof (roundTrip_succeeds (CallIter mq) w H) as Hr.
  pose proof (roundTrip_coll (CallIter mq) w) as Hcoll.
  destruct (roundTrip (CallIter mq) w) as [failure w1]. simpl in *.
  by rewrite Hr, Hcoll.
Qed.

Lemma Collection_RemoveAll_calls env sel w :
  calls (Collection_RemoveAll env sel w).2 = (calls w ++ [CallRemoveAll sel])%list.
Proof.
  unfold Collection_RemoveAll.
  pose proof (roundTrip_calls (CallRemoveAll sel) w) as H.
  by destruct (roundTrip (CallRemoveAll sel) w) as [[e|] w1].
Qed.

Lemma Collection_RemoveAll_quiet env sel w :
  script w = [] ->
  Collection_RemoveAll env sel w =
    ((Some (Z.of_nat (length (filter (fun d => matches env sel d = true) (coll w)))),
      None),
     set_coll (filter (fun d => matches env sel d <> true) (coll w))
       (logged (CallRemoveAll sel) w)).
Proof. intros H. unfold Collection_RemoveAll. by rewrite roundTrip_quiet. Qed.

(** The identifiers the pre-pass of [Clear] collects. *)
Lemma selectIDs_succeeds env mq w :
  next_call_succeeds w ->
  selectIDs env mq w =
    (Ok (map docID
           (limitDocs (find_limit mq)
              (skipDocs (find_skip mq)
                 (sortDocs env (find_sort mq)
                    (filter (fun d => matches env (find_filter mq) d = true)
                            (coll w)))))),
     (roundTrip (CallIter (Query_Select {["_id" := VInt 1]} mq)) w).2).
Proof.
  intros H. unfold selectIDs. rewrite Query_Iter_succeeds by done.
  unfold cursor. simpl. rewrite map_map.
  do 2 f_equal. apply map_ext. intros d. apply selectDoc_docID.
Qed.

Lemma filter_ext_elem {A} (P Q : A -> Prop)
    `{!forall x, Decision (P x)} `{!forall x, Decision (Q x)} (l : list A) :
  (forall x, x ∈ l -> P x <-> Q x) -> filter P l = filter Q l.
Proof.
  induction l as [|x l IH]; intros Hext; [done|].
  rewrite !filter_cons.
  rewrite IH by (intros y Hy; apply Hext; by right).
  assert (P x <-> Q x) as Hx by (apply Hext; by left).
  destruct (decide (P x)) as [HP|HP]; destruct (decide (Q x)) as [HQ|HQ];
    tauto || done.
Qed.

Lemma NoDup_docID_inj (c : list bsonM) d d' :
  NoDup (map docID c) -> d ∈ c -> d' ∈ c -> docID d = docID d' -> d = d'.
Proof.
  induction c as [|x c IH]; simpl; intros Hnd Hd Hd' Heq.
  - by apply elem_of_nil in Hd.
  - apply NoDup_cons in Hnd as [Hx Hnd].
    apply elem_of_cons in Hd as [->|Hd]; apply elem_of_cons in Hd' as [->|Hd'].
    + done.
    + exfalso. apply Hx. rewrite Heq. by apply list_elem_of_fmap_2.
    + exfalso. apply Hx. rewrite <- Heq. by apply list_elem_of_fmap_2.
    + by apply IH.
Qed.

Lemma filter_eq_absent (c : list bsonM) d :
  d ∉ c -> filter (fun x => x = d) c = [].
Proof.
  induction c as [|x c IH]; intros Hd; [done|].
  apply not_elem_of_cons in Hd as [Hne Hd]. rewrite filter_cons.
  destruct (decide (x = d)) as [->|_]; [done|]. by apply IH.
Qed.

Lemma filter_eq_length (c : list bsonM) d :
  NoDup c -> d ∈ c -> length (filter (fun x => x = d) c) = 1%nat.
Proof.
  induction c as [|x c IH]; intros Hnd Hd.
  - by apply elem_of_nil in Hd.
  - apply NoDup_cons in Hnd as [Hx Hnd]. rewrite filter_cons.
    destruct (decide (x = d)) as [->|Hne].
    + simpl. by rewrite filter_eq_absent.
    + apply IH; [done|]. apply elem_of_cons in Hd as [->|Hd]; done.
Qed.

Lemma applyWindow_keeps mq window :
  find_filter (applyWindow mq window) = find_filter mq /\
  find_sort (applyWindow mq window) = find_sort mq /\
  find_select (applyWindow mq window) = find_select mq /\
  find_skip (applyWindow mq window) =
    (if 0 <? Offset window then Some (Offset window) else find_skip mq) /\
  find_limit (applyWindow mq window) =
    (if -1 <? Limit window then Some (Limit window) else find_limit mq).
Proof.
  unfold applyWindow.
  by destruct (0 <? Offset window); destruct (-1 <? Limit window).
Qed.

(** C6.  [Clear] on a query with a window, once the filter is translated
    and a session is at hand: the first round trip is the pre-pass, the
    filtered and sorted query with the window applied and only [_id]
    selected; when the driver does not fail it, the second is the bulk
    delete of the documents whose [_id] is among the identifiers the
    pre-pass yielded.  With offset 0 and limit 1 and two matching
    documents, the first in sort order is removed and the second stays. *)
Theorem clear_window_prepass
    (env : Env) (q : Query) (w : World) (window : Window) (qry : bsonM) :
  q_Window q = Some window ->
  getQuery q = Ok qry ->
  Handler_c w = None ->
  next_call_succeeds w ->
  let prepass :=
    Query_Select {["_id" := VInt 1]}
      (applyWindow (Query_Sort (getSort q) (Collection_Find qry)) window) in
  let matching :=
    sortDocs env (getSort q)
      (filter (fun d => matches env qry d = true) (coll w)) in
  let ids :=
    map docID
      (limitDocs (find_limit prepass) (skipDocs (find_skip prepass) matching)) in
  (find_filter prepass = qry /\
   find_sort prepass = getSort q /\
   find_select prepass = Some {["_id" := VInt 1]} /\
   find_skip prepass =
     (if 0 <? Offset window then Some (Offset window) else None) /\
   find_limit prepass =
     (if -1 <? Limit window then Some (Limit window) else None)) /\
  calls (Clear env q w).2 =
    (calls w ++
     [CallIter prepass;
      CallRemoveAll {["_id" := VDoc {["$in" := VList ids]}]}])%list /\
  (window = {| Offset := 0; Limit := 1 |} ->
   script w = [] ->
   id_in_law env ->
   sort_permutes env ->
   NoDup (map docID (coll w)) ->
   forall d1 d2,
     matching = [d1; d2] ->
     exists w',
       Clear env q w = ((1, None), w') /\
       coll w' = filter (fun d => d <> d1) (coll w) /\
       (d1 ∉ coll w') /\ (d2 ∈ coll w')).
Proof.
  intros Hwin Hqry Hc Hok prepass matching ids.
  pose proof (applyWindow_keeps (Query_Sort (getSort q) (Collection_Find qry))
                window) as (Hf & Hs & Hsel & Hskip & Hlim).
  assert (Hids :
    selectIDs env
      (applyWindow (Query_Sort (getSort q) (Collection_Find qry)) window) w =
    (Ok ids, (roundTrip (CallIter prepass) w).2)).
  { rewrite selectIDs_succeeds by done. by rewrite Hf, Hs. }
  split; [|split].
  - unfold prepass. simpl. by rewrite Hf, Hs, Hskip, Hlim.
  - unfold Clear. rewrite Hqry, Hc, Hwin, Hids.
    pose proof (Collection_RemoveAll_calls env
                  {["_id" := VDoc {["$in" := VList ids]}]}
                  (roundTrip (CallIter prepass) w).2) as Hcalls.
    destruct (Collection_RemoveAll _ _ _) as [[info err] w2]. simpl in Hcalls.
    rewrite roundTrip_calls, <- app_assoc in Hcalls.
    by destruct info.
  - intros -> Hquiet Hin Hsort Hnodup d1 d2 Hmatching.
    assert (Hperm : [d1; d2] ≡ₚ filter (fun d => matches env qry d = true) (coll w))
      by (rewrite <- Hmatching; apply Hsort).
    assert (Hnd : NoDup (coll w)) by (by apply NoDup_fmap_1 in Hnodup).
    assert (Hd1 : d1 ∈ coll w).
    { eapply (list_elem_of_filter (fun d => matches env qry d = true)).
      rewrite <- Hperm. by left. }
    assert (Hd2 : d2 ∈ coll w).
    { eapply (list_elem_of_filter (fun d => matches env qry d = true)).
      rewrite <- Hperm. right. by left. }
    assert (Hne : d2 <> d1).
    { assert (NoDup [d1; d2]) as Hnd2
        by (rewrite Hperm; by apply NoDup_filter).
      apply NoDup_cons in Hnd2 as [Hnot _]. intros ->. apply Hnot. by left. }
    assert (Hids1 : ids = [docID d1]).
    { unfold ids. by rewrite Hmatching. }
    assert (Hsel1 : forall d, d ∈ coll w ->
              matches env {["_id" := VDoc {["$in" := VList [docID d1]]}]} d = true
              <-> d = d1).
    { intros d Hd. rewrite (Hin [docID d1] d), list_elem_of_singleton. split.
      - by apply (NoDup_docID_inj (coll w)).
      - by intros ->. }
    unfold Clear. rewrite Hqry, Hc, Hwin, Hids, Hids1.
    rewrite roundTrip_quiet by done. simpl.
    rewrite Collection_RemoveAll_quiet by done. simpl.
    rewrite (Handler_c_live w Hc).
    rewrite (filter_ext_elem _ (fun d => d = d1) (coll w) Hsel1).
    rewrite filter_eq_length by done.
    rewrite (filter_ext_elem
               (fun d => matches env {["_id" := VDoc {["$in" := VList [docID d1]]}]} d
                         <> true)
               (fun d => d <> d1) (coll w))
      by (intros d Hd; by rewrite (Hsel1 d Hd)).
    eexists. split; [reflexivity|]. simpl. split; [done|]. split.
    + rewrite list_elem_of_filter. tauto.
    + by apply list_elem_of_filter.
Qed.

Lemma ref_id_in_law : id_in_law ref_env.
Proof.
  intros ids d. simpl. unfold ref_matches.
  rewrite map_fold_singleton. simpl.
  assert (is_operator_doc {["$in" := VList ids]} = true) as ->.
  { unfold is_operator_doc. rewrite map_fold_singleton.
    apply andb_true_iff. split; [|reflexivity].
    apply bool_decide_eq_true. apply map_non_empty_singleton. }
  rewrite map_fold_singleton. simpl. unfold ref_operator.
  destruct (decide ("$in" = "$exists")) as [?|_]; [done|].
  destruct (decide ("$in" = "$in")) as [_|?]; [|done].
  apply bool_decide_eq_true.
Qed.

Lemma clear_window_prepass_witness :
  let q := name_in_c_d (Some {| Offset := 0; Limit := 1 |}) in
  let w := quiet [named "1" "a"; named "2" "b"; named "3" "d"; named "4" "c"] in
  let qry : bsonM := {["name" := VDoc {["$in" := VList [VStr "c"; VStr "d"]]}]} in
  q_Window q = Some {| Offset := 0; Limit := 1 |} /\
  getQuery q = Ok qry /\
  Handler_c w = None /\
  next_call_succeeds w /\
  id_in_law ref_env /\
  sort_permutes ref_env /\
  NoDup (map docID (coll w)) /\
  sortDocs ref_env (getSort q)
    (filter (fun d => matches ref_env qry d = true) (coll w))
    = [named "4" "c"; named "3" "d"] /\
  exists w',
    Clear ref_env q w = ((1, None), w') /\
    coll w' = filter (fun d => d <> named "4" "c") (coll w) /\
    (named "4" "c" ∉ coll w') /\ (named "3" "d" ∈ coll w').
Proof.
  intros q w qry.
  assert (Hqry : getQuery q = Ok qry) by (vm_compute; reflexivity).
  assert (Hok : next_call_succeeds w) by (intros ev; discriminate).
  assert (Hnodup : NoDup (map docID (coll w))).
  { apply (bool_decide_unpack (NoDup (map docID (coll w)))).
    vm_compute. exact I. }
  assert (Hmatching :
    sortDocs ref_env (getSort q)
      (filter (fun d => matches ref_env qry d = true) (coll w))
    = [named "4" "c"; named "3" "d"]) by (vm_compute; reflexivity).
  split; [reflexivity|]. split; [exact Hqry|]. split; [reflexivity|].
  split; [exact Hok|]. split; [exact ref_id_in_law|].
  split; [exact ref_sort_permutes|].
  split; [exact Hnodup|]. split; [exact Hmatching|].
  exact (proj2 (proj2
           (clear_window_prepass ref_env q w {| Offset := 0; Limit := 1 |} qry
              eq_refl Hqry eq_refl Hok))
           eq_refl eq_refl ref_id_in_law ref_sort_permutes Hnodup
           (named "4" "c") (named "3" "d") Hmatching).
Defined.

(** ** The package's tests, replayed on the reference environment *)

(** [TestFind]. *)
Example test_find :
  let w := (Insert people (quiet [])).2 in
  find_summary [] None w
    = Some (6, ["p-1"; "p-2"; "p-3"; "p-4"; "p-5"; "p-6"]) /\
  find_summary [] (Some {| Offset := 0; Limit := 0 |}) w = Some (6, []) /\
  find_summary [] (Some {| Offset := 2; Limit := -1 |}) w
    = Some (6, ["p-3"; "p-4"; "p-5"; "p-6"]) /\
  find_summary [] (Some {| Offset := 6; Limit := -1 |}) w = Some (-1, []) /\
  find_summary [Equal "name" (VStr "c")] (Some {| Offset := 0; Limit := 1 |}) w
    = Some (-1, ["p-3"]) /\
  find_summary [In "name" [VStr "c"; VStr "d"]]
    (Some {| Offset := 0; Limit := 100 |}) w = Some (2, ["p-3"; "p-4"]) /\
  find_summary [Equal "id" (VStr "3")] None w = Some (1, ["p-3"]) /\
  find_summary [Equal "id" (VStr "10")] (Some {| Offset := 0; Limit := 1 |}) w
    = Some (0, []) /\
  find_summary [In "id" [VStr "3"; VStr "4"; VStr "10"]]
    (Some {| Offset := 0; Limit := 1 |}) w = Some (-1, ["p-3"]) /\
  find_summary [And [Equal "id" (VStr "2"); Equal "name" (VStr "b")]] None w
    = Some (1, ["p-2"]).
Proof. vm_compute. repeat split. Qed.

(** [TestClear], [TestClearLimit] and [TestClearOffset]. *)
Example test_clear :
  let w := quiet [named "1" "a"; named "2" "b"; named "3" "d"; named "4" "c"] in
  let after window :=
    let '(r, w') := Clear ref_env (name_in_c_d window) w in
    (r, map docID (coll w')) in
  after None = ((2, None), [VStr "1"; VStr "2"]) /\
  after (Some {| Offset := 0; Limit := 1 |})
    = ((1, None), [VStr "1"; VStr "2"; VStr "3"]) /\
  after (Some {| Offset := 1; Limit := -1 |})
    = ((1, None), [VStr "1"; VStr "2"; VStr "4"]).
Proof. vm_compute. repeat split. Qed.

(** [TestInsert], [TestUpdate] and [TestDelete]: a second insert of the
    same identifier, a write on a missing item, on the current and on a
    stale ETag, and on a provisional ETag with and without a stored
    [_etag]. *)
Example test_insert_update_delete :
  let old := item_1234 "etag1" in
  let new := item_1234 "etag2" in
  let provisional := item_1234 "p-1234" in
  let bare : bsonM := {["_id" := VStr "1234"; "foo" := VStr "bar"]} in
  let w := (Insert [old] (quiet [])).2 in
  (Insert [old] (quiet [])).1 = None /\
  (Insert [old] w).1 = Some ErrConflict /\
  (Update ref_env new old (quiet [])).1 = Some ErrNotFound /\
  (Update ref_env new old w).1 = None /\
  (Update ref_env new old (Update ref_env new old w).2).1 = Some ErrConflict /\
  (Update ref_env new provisional (quiet [bare])).1 = None /\
  (Update ref_env new provisional w).1 = Some ErrConflict /\
  (Delete ref_env old (quiet [])).1 = Some ErrNotFound /\
  (Delete ref_env old w).1 = None /\
  (Delete ref_env new w).1 = Some ErrConflict /\
  (Delete ref_env provisional (quiet [bare])).1 = None /\
  (Delete ref_env provisional w).1 = Some ErrConflict.
Proof. vm_compute. repeat split. Qed.

(** [TestTranslatePredicate] on nested expressions, and [TestGetSort]. *)
Example test_translate_nested :
  translatePredicate
    [Or [Equal "f" (VStr "foo");
         And [Equal "f" (VStr "bar"); Equal "g" (VStr "baz")]]]
  = Ok {["$or" := VDocs [ {["f" := VStr "foo"]};
                          {["$and" := VDocs [ {["f" := VStr "bar"]};
                                              {["g" := VStr "baz"]} ]]} ]]} /\
  translatePredicate
    [ElemMatch "f" [Equal "a" (VStr "foo"); Equal "b" (VStr "bar")]]
  = Ok {["f" := VDoc {["$elemMatch" :=
                         VDoc {["a" := VStr "foo"; "b" := VStr "bar"]}]}]} /\
  translatePredicate [OtherExpression "UnsupportedExpression"]
  = Err ErrNotImplemented.
Proof. vm_compute. repeat split. Qed.


(** * Further properties *)

(** ** Translation: how the parts compose *)

Lemma getField_not_id f : getField f <> "id".
Proof. unfold getField. destruct (decide (f = "id")); [done|congruence]. Qed.

(** Every expression writes one entry, and what it writes does not
    depend on the document written into. *)
Lemma translateExpression_entry b exp :
  translateExpression b exp =
  try r <- translateExpression ∅ exp; Ok (r ∪ b).
Proof.
  assert (forall k v, (<[k := v]> ∅ : bsonM) ∪ b = <[k := v]> b) as Hins.
  { intros k v. by rewrite insert_empty, <- insert_union_singleton_l. }
  destruct exp; simpl; rewrite ?Hins; try reflexivity.
  - fold (subPredicates exps []).
    destruct (subPredicates exps []); simpl; by rewrite ?Hins.
  - fold (subPredicates exps []).
    destruct (subPredicates exps []); simpl; by rewrite ?Hins.
  - fold (mergePredicates Exps ∅).
    destruct (mergePredicates Exps ∅); simpl; by rewrite ?Hins.
Qed.

Lemma translateExpression_key b exp r :
  translateExpression b exp = Ok r ->
  exists k v, r = <[k := v]> b /\ k <> "id".
Proof.
  pose proof getField_not_id as Hf.
  destruct exp; simpl; try (intros [= <-]; eauto; fail); try done.
  - fold (subPredicates exps []).
    destruct (subPredicates exps []); simpl; [|done]. intros [= <-]. eauto.
  - fold (subPredicates exps []).
    destruct (subPredicates exps []); simpl; [|done]. intros [= <-]. eauto.
  - fold (mergePredicates Exps ∅).
    destruct (mergePredicates Exps ∅); simpl; [|done]. intros [= <-]. eauto.
Qed.

Lemma mergePredicates_translateLoop t s :
  mergePredicates t s = translateLoop t s.
Proof.
  revert s. induction t as [|e t IH]; intros s; simpl; [done|].
  rewrite (translateExpression_entry s e).
  destruct (translateExpression ∅ e); simpl; [apply IH|done].
Qed.

Lemma subPredicates_operands t acc r :
  subPredicates t acc = Ok r <->
  exists s, r = (acc ++ s)%list /\
            Forall2 (fun e sb => translatePredicate [e] = Ok sb) t s.
Proof.
  revert acc r. induction t as [|e t IH]; intros acc r; simpl.
  - split.
    + intros [= <-]. exists []. split; [by rewrite app_nil_r|constructor].
    + intros (s & -> & Hs). apply Forall2_nil_inv_l in Hs as ->.
      by rewrite app_nil_r.
  - rewrite <- (translatePredicate_singleton e).
    destruct (translatePredicate [e]) as [sb|err] eqn:He; simpl.
    + rewrite IH. split.
      * intros (s & -> & Hs). exists (sb :: s).
        split; [by rewrite <- app_assoc|by constructor].
      * intros (s & -> & Hs).
        apply Forall2_cons_inv_l in Hs as (sb' & s' & Hsb & Hs' & ->).
        assert (sb' = sb) as -> by congruence.
        exists s'. split; [by rewrite <- app_assoc|done].
    + split; [done|]. intros (s & _ & Hs).
      apply Forall2_cons_inv_l in Hs as (sb' & s' & Hsb & _). congruence.
Qed.

(** X1.  [And] and [Or] translate operand by operand: the result is the
    one-key document [$and] (or [$or]) whose list holds, in order, the
    translation of each operand taken alone as a predicate; and the
    whole fails as soon as one operand does. *)
Theorem and_or_translate_operand_wise (t : list Expression) (b : bsonM) :
  (translatePredicate [And t] = Ok b <->
   exists s, b = {["$and" := VDocs s]} /\
             Forall2 (fun e sb => translatePredicate [e] = Ok sb) t s) /\
  (translatePredicate [Or t] = Ok b <->
   exists s, b = {["$or" := VDocs s]} /\
             Forall2 (fun e sb => translatePredicate [e] = Ok sb) t s).
Proof.
  rewrite !translatePredicate_singleton.
  rewrite translateExpression_And, translateExpression_Or.
  pose proof (subPredicates_operands t []) as Hsub.
  destruct (subPredicates t []) as [s|err]; simpl; rewrite ?insert_empty.
  - destruct (proj1 (Hsub s) eq_refl) as (s' & Hs' & Hall).
    simpl in Hs'. subst s'.
    split; (split; [intros [= <-]; eauto|]).
    + intros (s' & -> & Hall'). do 3 f_equal.
      assert (Ok s = Ok s') as [= ->]; [|done].
      apply Hsub. eauto.
    + intros (s' & -> & Hall'). do 3 f_equal.
      assert (Ok s = Ok s') as [= ->]; [|done].
      apply Hsub. eauto.
  - split; (split; [done|]); intros (s' & _ & Hall');
      assert (Err err = Ok s') as Hbad by (apply Hsub; eauto); done.
Qed.

Lemma and_or_translate_operand_wise_witness :
  Forall2 (fun e sb => translatePredicate [e] = Ok sb)
    [Equal "f" (VStr "foo"); Equal "id" (VStr "bar")]
    [ {["f" := VStr "foo"]}; {["_id" := VStr "bar"]} ] /\
  translatePredicate [Or [Equal "f" (VStr "foo"); Equal "id" (VStr "bar")]]
  = Ok {["$or" := VDocs [ {["f" := VStr "foo"]}; {["_id" := VStr "bar"]} ]]}.
Proof.
  assert (Hall : Forall2 (fun e sb => translatePredicate [e] = Ok sb)
                   [Equal "f" (VStr "foo"); Equal "id" (VStr "bar")]
                   [ {["f" := VStr "foo"]}; {["_id" := VStr "bar"]} ]).
  { repeat constructor; vm_compute; reflexivity. }
  split; [exact Hall|].
  apply (proj2 (and_or_translate_operand_wise
                  [Equal "f" (VStr "foo"); Equal "id" (VStr "bar")] _)).
  eexists. split; [reflexivity|exact Hall].
Defined.

(** X2.  The sub-document of [$elemMatch] is the translation of the
    expressions of the node taken as a predicate of their own: later
    entries on a key replace earlier ones there as they do at top level,
    and a failure inside fails the whole. *)
Theorem elemMatch_translates_its_predicate (f : string) (exps : list Expression) :
  translatePredicate [ElemMatch f exps] =
  try s <- translatePredicate exps;
  Ok {[getField f := VDoc {["$elemMatch" := VDoc s]}]}.
Proof.
  rewrite translatePredicate_singleton, translateExpression_ElemMatch.
  rewrite mergePredicates_translateLoop. fold (translatePredicate exps).
  destruct (translatePredicate exps); simpl; by rewrite ?insert_empty.
Qed.

Lemma translateLoop_never_names_id q b0 b :
  b0 !! "id" = None -> translateLoop q b0 = Ok b -> b !! "id" = None.
Proof.
  revert b0. induction q as [|e q IH]; intros b0 Hb0; simpl.
  - by intros [= <-].
  - destruct (translateExpression b0 e) as [b1|] eqn:He; simpl; [|done].
    apply translateExpression_key in He as (k & v & -> & Hk).
    apply IH. by rewrite lookup_insert_ne.
Qed.

(** X3.  No filter document has a key "id": whatever the predicate, a
    translation that succeeds addresses the identifier as "_id" and
    leaves the key "id" unused at top level. *)
Theorem filter_never_names_id (q : Predicate) (b : bsonM) :
  translatePredicate q = Ok b -> b !! "id" = None.
Proof. apply translateLoop_never_names_id. apply lookup_empty. Qed.

Lemma filter_never_names_id_witness :
  translatePredicate [Equal "id" (VStr "foo"); Exist "g"]
    = Ok {["_id" := VStr "foo"; "g" := VDoc {["$exists" := VBool true]}]} /\
  ({["_id" := VStr "foo"; "g" := VDoc {["$exists" := VBool true]}]} : bsonM)
    !! "id" = None.
Proof.
  assert (H : translatePredicate [Equal "id" (VStr "foo"); Exist "g"]
              = Ok {["_id" := VStr "foo"; "g" := VDoc {["$exists" := VBool true]}]})
    by (vm_compute; reflexivity).
  split; [exact H|].
  exact (filter_never_names_id _ _ H).
Defined.

(** X4.  The sort list is never empty, so every query that takes it is
    ordered, and no entry of it is "id". *)
Theorem sort_list_never_empty (q : Query) :
  getSort q <> [] /\ Forall (fun s => s <> "id") (getSort q).
Proof.
  unfold getSort. destruct (decide _) as [H0|Hn].
  - split; [done|]. by repeat constructor.
  - split.
    + destruct (q_Sort q); [done|discriminate].
    + apply Forall_fmap, Forall_forall. intros sf _. simpl.
      pose proof (getField_not_id (Name sf)) as Hf.
      destruct (Reversed sf); [|done].
      intros H. cbn in H. discriminate H.

Qed.

(** ** The ObjectID validator *)

Lemma lower_hex_digit_spec (c : ascii) :
  is_hex_digit c = true ->
  is_lower_hex_digit (lower_hex_digit c) = true.
Proof.
  destruct c as [[] [] [] [] [] [] [] []]; vm_compute; intros H;
    first [reflexivity | discriminate H].
Qed.

Lemma lower_hex_digit_fixed (c : ascii) :
  is_lower_hex_digit c = true -> lower_hex_digit c = c /\ is_hex_digit c = true.
Proof.
  destruct c as [[] [] [] [] [] [] [] []]; vm_compute; intros H;
    first [split; reflexivity | discriminate H].
Qed.

Lemma string_map_length f s : String.length (string_map f s) = String.length s.
Proof. induction s as [|c s IH]; simpl; [done|by rewrite IH]. Qed.

Lemma string_map_lower_hex s :
  string_forallb is_hex_digit s = true ->
  string_forallb is_lower_hex_digit (string_map lower_hex_digit s) = true.
Proof.
  induction s as [|c s IH]; simpl; [done|].
  intros [Hc Hs]%andb_true_iff. by rewrite lower_hex_digit_spec, IH.
Qed.

Lemma string_map_lower_fixed h :
  string_forallb is_lower_hex_digit h = true ->
  string_map lower_hex_digit h = h /\ string_forallb is_hex_digit h = true.
Proof.
  induction h as [|c h IH]; simpl; [done|].
  intros [Hc Hh]%andb_true_iff.
  destruct (lower_hex_digit_fixed c Hc) as [-> ->].
  destruct (IH Hh) as [-> ->]. done.
Qed.

Lemma validate_well_formed (h : string) :
  well_formed_hex h = true -> ObjectID_Validate (VStr h) = Ok (VObjectId h).
Proof.
  unfold well_formed_hex. intros [Hlen Hdigits]%andb_true_iff.
  destruct (string_map_lower_fixed h Hdigits) as [Hfix Hhex].
  unfold ObjectID_Validate, IsObjectIdHex, ObjectIdHex.
  by rewrite Hlen, Hhex, Hfix.
Qed.

(** X5.  An identifier in the form [Hex] writes it, 24 hexadecimal
    digits in lower case, goes through [Serialize] and back through
    [Validate] unchanged. *)
Theorem objectid_serialize_validate (h : string) :
  well_formed_hex h = true ->
  ObjectID_Serialize (VObjectId h) = Ok (VStr h) /\
  ObjectID_Validate (VStr h) = Ok (VObjectId h).
Proof. intros H. split; [reflexivity|by apply validate_well_formed]. Qed.

Lemma objectid_serialize_validate_witness :
  well_formed_hex "59a40602952dbd0001c3ffc9" = true /\
  ObjectID_Serialize (VObjectId "59a40602952dbd0001c3ffc9")
    = Ok (VStr "59a40602952dbd0001c3ffc9") /\
  ObjectID_Validate (VStr "59a40602952dbd0001c3ffc9")
    = Ok (VObjectId "59a40602952dbd0001c3ffc9").
Proof.
  split; [reflexivity|].
  exact (objectid_serialize_validate "59a40602952dbd0001c3ffc9" eq_refl).
Defined.

(** X6.  Whatever [Validate] accepts is a string, and the identifier it
    gives is well formed: [Serialize] turns it into the lower-case form
    of that string, which [Validate] accepts again with the same
    result.  Upper-case digits are accepted and do not come back. *)
Theorem objectid_validate_serialize (v oid : value) :
  ObjectID_Validate v = Ok oid ->
  exists s h,
    v = VStr s /\
    h = string_map lower_hex_digit s /\
    well_formed_hex h = true /\
    ObjectID_Serialize oid = Ok (VStr h) /\
    ObjectID_Validate (VStr h) = Ok oid.
Proof.
  destruct v as [| | |s| | | | |]; try done. simpl.
  destruct (String.length s =? 24)%nat eqn:Hlen; simpl; [|done].
  unfold IsObjectIdHex. rewrite Hlen. simpl.
  destruct (string_forallb is_hex_digit s) eqn:Hhex; simpl; [|done].
  intros [= <-]. exists s, (string_map lower_hex_digit s).
  assert (Hwf : well_formed_hex (string_map lower_hex_digit s) = true).
  { unfold well_formed_hex.
    by rewrite string_map_length, Hlen, string_map_lower_hex. }
  repeat split; try done. by apply validate_well_formed.
Qed.

Lemma objectid_validate_serialize_witness :
  ObjectID_Validate (VStr "59A40602952DBD0001C3FFC9")
    = Ok (VObjectId "59a40602952dbd0001c3ffc9") /\
  exists s h,
    VStr "59A40602952DBD0001C3FFC9" = VStr s /\
    h = string_map lower_hex_digit s /\
    well_formed_hex h = true /\
    ObjectID_Serialize (VObjectId "59a40602952dbd0001c3ffc9") = Ok (VStr h) /\
    ObjectID_Validate (VStr h) = Ok (VObjectId "59a40602952dbd0001c3ffc9").
Proof.
  assert (H : ObjectID_Validate (VStr "59A40602952DBD0001C3FFC9")
              = Ok (VObjectId "59a40602952dbd0001c3ffc9")) by reflexivity.
  split; [exact H|].
  exact (objectid_validate_serialize _ _ H).
Defined.

(** The two cases of [TestObjectIDValidate]. *)
Example test_objectid_validate :
  ObjectID_Validate (VStr "59a40602952dbd0001c3ffc9")
    = Ok (VObjectId "59a40602952dbd0001c3ffc9") /\
  ObjectID_Validate (VStr "59a40602952dbd0001c3ffc9f")
    = Err (OtherError "invalid object id length").
Proof. split; reflexivity. Qed.

(** ** What is decided before any round trip *)

(** X7.  A predicate with a node the translator does not know stops
    [Find], [Count] and [Clear] before anything else is looked at: the
    error is [ErrNotImplemented] even when the context has ended, no
    round trip is made and the world is as it was. *)
Theorem untranslatable_makes_no_call (env : Env) (q : Query) (w : World) :
  forallb supported (q_Predicate q) = false ->
  Find env q w = (Err ErrNotImplemented, w) /\
  Count env q w = ((-1, Some ErrNotImplemented), w) /\
  Clear env q w = ((0, Some ErrNotImplemented), w).
Proof.
  intros Hs.
  assert (Hq : getQuery q = Err ErrNotImplemented)
    by (apply (proj2 (translateLoop_outcome (q_Predicate q)) Hs)).
  assert (Hcount : Count env q w = ((-1, Some ErrNotImplemented), w))
    by (unfold Count; by rewrite Hq).
  split; [|split; [done|]].
  - unfold Find, findWindow. rewrite Hcount, Hq.
    destruct (q_Window q) as [window|]; [|done].
    by destruct (Limit window =? 0).
  - unfold Clear. by rewrite Hq.
Qed.

Lemma untranslatable_makes_no_call_witness :
  let q := {| q_Predicate := [And [Equal "f" (VInt 1); OtherExpression "Near"]];
              q_Sort := []; q_Window := Some {| Offset := 0; Limit := 0 |} |} in
  let w := {| coll := [stored_1234]; ctx_err := Some Canceled;
              handler_err := None; script := []; calls := [] |} in
  forallb supported (q_Predicate q) = false /\
  Find ref_env q w = (Err ErrNotImplemented, w) /\
  Count ref_env q w = ((-1, Some ErrNotImplemented), w) /\
  Clear ref_env q w = ((0, Some ErrNotImplemented), w).
Proof.
  intros q w. split; [reflexivity|].
  exact (untranslatable_makes_no_call ref_env q w eq_refl).
Defined.

(** X8.  When the context has ended on entry, or the handler function
    gives no collection, every method returns that error, makes no
    round trip and leaves the world as it was ([Find], [Count] and
    [Clear] once their filter is translated). *)
Theorem no_session_no_call
    (env : Env) (w : World) (e : error) (items : list Item)
    (item original : Item) (q : Query) (qry : bsonM) :
  Handler_c w = Some e ->
  getQuery q = Ok qry ->
  Insert items w = (Some e, w) /\
  Update env item original w = (Some e, w) /\
  Delete env original w = (Some e, w) /\
  Find env q w = (Err e, w) /\
  Count env q w = ((-1, Some e), w) /\
  Clear env q w = ((0, Some e), w).
Proof.
  intros Hc Hq.
  assert (Hcount : Count env q w = ((-1, Some e), w))
    by (unfold Count; by rewrite Hq, Hc).
  unfold Insert, Update, Delete, Clear, Find, findWindow.
  rewrite Hcount, Hq, Hc. repeat split; try done.
  destruct (q_Window q) as [window|]; [|done].
  by destruct (Limit window =? 0).
Qed.

Lemma no_session_no_call_witness :
  let w := {| coll := [stored_1234]; ctx_err := Some DeadlineExceeded;
              handler_err := None; script := []; calls := [] |} in
  let q := name_in_c_d (Some {| Offset := 0; Limit := 1 |}) in
  Handler_c w = Some DeadlineExceeded /\
  getQuery q = Ok {["name" := VDoc {["$in" := VList [VStr "c"; VStr "d"]]}]} /\
  Insert [item_1234 "etag1"] w = (Some DeadlineExceeded, w) /\
  Update ref_env (item_1234 "etag3") (item_1234 "etag2") w
    = (Some DeadlineExceeded, w) /\
  Delete ref_env (item_1234 "etag2") w = (Some DeadlineExceeded, w) /\
  Find ref_env q w = (Err DeadlineExceeded, w) /\
  Count ref_env q w = ((-1, Some DeadlineExceeded), w) /\
  Clear ref_env q w = ((0, Some DeadlineExceeded), w).
Proof.
  intros w q.
  assert (Hq : getQuery q
               = Ok {["name" := VDoc {["$in" := VList [VStr "c"; VStr "d"]]}]})
    by (vm_compute; reflexivity).
  split; [reflexivity|]. split; [exact Hq|].
  exact (no_session_no_call ref_env w DeadlineExceeded [item_1234 "etag1"]
           (item_1234 "etag3") (item_1234 "etag2") q _ eq_refl Hq).
Defined.

(** ** Insert *)

Lemma encodeItem_id (m : mongoItem) : encodeItem m !! "_id" = Some (mID m).
Proof. unfold encodeItem. apply lookup_insert_eq. Qed.

Lemma encodeItem_etag (m : mongoItem) :
  encodeItem m !! "_etag" = Some (VStr (mETag m)).
Proof.
  unfold encodeItem. rewrite lookup_insert_ne by done. apply lookup_insert_eq.
Qed.

Lemma insertDocs_fresh (docs c : list bsonM) :
  (forall d d', d ∈ docs -> d' ∈ c -> d' !! "_id" <> d !! "_id") ->
  NoDup (map (fun d => d !! "_id") docs) ->
  insertDocs docs c = (None, (c ++ docs)%list).
Proof.
  revert c. induction docs as [|d docs IH]; intros c Hfresh Hnd; simpl.
  - by rewrite app_nil_r.
  - apply NoDup_cons in Hnd as [Hd Hnd].
    destruct (existsb _ c) eqn:Hex.
    + apply existsb_exists in Hex as (d' & Hin & Heq).
      apply bool_decide_eq_true in Heq. apply list_elem_of_In in Hin.
      exfalso. apply (Hfresh d d'); [by left|done|done].
    + rewrite IH; [by rewrite <- app_assoc| |done].
      intros d1 d' Hd1 Hd'. apply elem_of_app in Hd' as [Hd'|Hd'].
      * apply Hfresh; [by right|done].
      * apply list_elem_of_singleton in Hd' as ->. intros Heq. apply Hd.
        rewrite Heq. by apply (list_elem_of_fmap_2 (fun d => d !! "_id")).
Qed.

Lemma Collection_Insert_quiet docs w :
  script w = [] ->
  Collection_Insert docs w =
    ((insertDocs docs (coll w)).1,
     set_coll (insertDocs docs (coll w)).2 (logged (CallInsert docs) w)).
Proof.
  intros H. unfold Collection_Insert. rewrite roundTrip_quiet by done.
  simpl. by destruct (insertDocs docs (coll w)).
Qed.

Lemma Insert_fresh (items : list Item) (w : World) :
  Handler_c w = None ->
  script w = [] ->
  NoDup (map ID items) ->
  (forall i d, i ∈ items -> d ∈ coll w -> d !! "_id" <> Some (ID i)) ->
  let docs := map (fun item => encodeItem (newMongoItem item)) items in
  Insert items w =
    (None, set_coll (coll w ++ docs)%list (logged (CallInsert docs) w)).
Proof.
  intros Hc Hquiet Hnd Hfresh docs. unfold Insert. rewrite Hc. fold docs.
  rewrite Collection_Insert_quiet by done.
  rewrite insertDocs_fresh.
  - simpl. by rewrite (Handler_c_live w Hc).
  - intros d d' Hd Hd'. unfold docs in Hd.
    apply list_elem_of_fmap in Hd as (i & -> & Hi).
    rewrite encodeItem_id. simpl. by apply Hfresh.
  - unfold docs. rewrite map_map.
    erewrite map_ext; [|intros i; apply encodeItem_id]. simpl.
    by apply (NoDup_fmap_2 Some) in Hnd; rewrite <- list_fmap_compose in Hnd.
Qed.

(** X9.  On a live session that nothing disturbs, a batch of items whose
    identifiers differ from one another and from every stored one is
    stored whole, in order, behind the documents already there, each in
    its encoded form, and [Insert] returns no error. *)
Theorem insert_stores_fresh_batch (items : list Item) (w : World) :
  Handler_c w = None ->
  script w = [] ->
  NoDup (map ID items) ->
  (forall i d, i ∈ items -> d ∈ coll w -> d !! "_id" <> Some (ID i)) ->
  let docs := map (fun item => encodeItem (newMongoItem item)) items in
  Insert items w =
    (None, set_coll (coll w ++ docs)%list (logged (CallInsert docs) w)).
Proof. exact (Insert_fresh items w). Qed.

Lemma insert_stores_fresh_batch_witness :
  let w := quiet [stored_1234] in
  let items := [person "1" "a"; person "2" "b"] in
  let docs := map (fun item => encodeItem (newMongoItem item)) items in
  Handler_c w = None /\
  NoDup (map ID items) /\
  Insert items w =
    (None, set_coll [stored_1234; named "1" "a"; named "2" "b"]
             (logged (CallInsert docs) w)).
Proof.
  intros w items docs.
  assert (Hnd : NoDup (map ID items)).
  { apply (bool_decide_unpack (NoDup (map ID items))). vm_compute. exact I. }
  assert (Hfresh : forall i d, i ∈ items -> d ∈ coll w -> d !! "_id" <> Some (ID i)).
  { intros i d Hi Hd. apply list_elem_of_singleton in Hd as ->.
    repeat (apply elem_of_cons in Hi as [->|Hi]; [vm_compute; discriminate|]).
    by apply elem_of_nil in Hi. }
  split; [reflexivity|]. split; [exact Hnd|].
  rewrite (insert_stores_fresh_batch items w eq_refl eq_refl Hnd Hfresh).
  vm_compute. reflexivity.
Defined.

(** X10.  On a live session that nothing disturbs, a batch whose first
    item has an identifier already stored is refused with [ErrConflict]
    and nothing of it is stored. *)
Theorem insert_refuses_stored_id (i : Item) (items : list Item) (w : World)
    (d : bsonM) :
  Handler_c w = None ->
  script w = [] ->
  d ∈ coll w ->
  d !! "_id" = Some (ID i) ->
  let docs := map (fun item => encodeItem (newMongoItem item)) (i :: items) in
  Insert (i :: items) w = (Some ErrConflict, logged (CallInsert docs) w).
Proof.
  intros Hc Hquiet Hd Hid docs. unfold Insert. rewrite Hc. fold docs.
  rewrite Collection_Insert_quiet by done. unfold docs. simpl.
  assert (existsb
            (fun d' => bool_decide (d' !! "_id" = encodeItem (newMongoItem i) !! "_id"))
            (coll w) = true) as ->.
  { apply existsb_exists. exists d. split; [by apply list_elem_of_In|].
    apply bool_decide_eq_true. by rewrite encodeItem_id. }
  simpl. rewrite (Handler_c_live w Hc). by destruct w.
Qed.

Lemma insert_refuses_stored_id_witness :
  let w := quiet [stored_1234] in
  let docs :=
    map (fun item => encodeItem (newMongoItem item))
      [item_1234 "etag1"; person "2" "b"] in
  Handler_c w = None /\
  stored_1234 ∈ coll w /\
  stored_1234 !! "_id" = Some (ID (item_1234 "etag1")) /\
  Insert [item_1234 "etag1"; person "2" "b"] w
    = (Some ErrConflict, logged (CallInsert docs) w).
Proof.
  intros w docs.
  assert (Hd : stored_1234 ∈ coll w) by (by left).
  assert (Hid : stored_1234 !! "_id" = Some (ID (item_1234 "etag1")))
    by (vm_compute; reflexivity).
  split; [reflexivity|]. split; [exact Hd|]. split; [exact Hid|].
  exact (insert_refuses_stored_id (item_1234 "etag1") [person "2" "b"] w
           stored_1234 eq_refl eq_refl Hd Hid).
Defined.

(** ** Insert, then Find *)

Lemma newMongoItem_reserved_free (i : Item) :
  reserved_free (Payload i) -> reserved_free (mPayload (newMongoItem i)).
Proof.
  intros (H1 & H2 & H3). simpl.
  repeat split; apply map_lookup_filter_None; by left.
Qed.

Lemma decode_encode_newMongoItem (i : Item) :
  reserved_free (Payload i) ->
  decodeItem (encodeItem (newMongoItem i)) = newMongoItem i.
Proof.
  intros H. apply newMongoItem_reserved_free in H as (H1 & H2 & H3).
  by apply stored_round_trip.
Qed.

Lemma filter_all {A} (P : A -> Prop) `{!forall x, Decision (P x)} (l : list A) :
  Forall P l -> filter P l = l.
Proof.
  induction 1 as [|x l Hx _ IH]; [done|].
  by rewrite filter_cons_True, IH.
Qed.

Lemma Find_no_window_quiet env q w qry :
  q_Window q = None ->
  getQuery q = Ok qry ->
  Handler_c w = None ->
  script w = [] ->
  let docs := sortDocs env (getSort q) (matching env qry (coll w)) in
  Find env q w =
    (Ok {| Total := Z.of_nat (length docs); ListLimit := -1;
           Items := map (fun d => newItem env (decodeItem d)) docs |},
     logged (CallIter (Query_Sort (getSort q) (Collection_Find qry))) w).
Proof.
  intros Hwin Hq Hc Hquiet docs. unfold Find, findWindow.
  rewrite Hwin, Hq, Hc. rewrite Query_Iter_quiet by done.
  unfold cursor. simpl. rewrite map_id. fold (matching env qry (coll w)).
  fold docs. rewrite (Handler_c_live w Hc), findLoop_live. simpl.
  by rewrite length_map.
Qed.

(** X11.  What [Insert] stores, [Find] gives back.  Items with distinct
    identifiers and payloads free of the reserved keys, inserted into an
    empty collection, are all found by the empty query, in some order:
    each with its identifier, its time and its payload with "id" set to
    the identifier, and with its ETag, or the provisional one when it
    had none.  The total is their number. *)
Theorem insert_then_find (env : Env) (items : list Item) (w : World) :
  match_all_law env ->
  sort_permutes env ->
  Handler_c w = None ->
  script w = [] ->
  coll w = [] ->
  NoDup (map ID items) ->
  Forall (fun i => reserved_free (Payload i)) items ->
  exists l w',
    Find env {| q_Predicate := []; q_Sort := []; q_Window := None |}
      (Insert items w).2 = (Ok l, w') /\
    Total l = Z.of_nat (length items) /\
    ListLimit l = -1 /\
    Items l ≡ₚ map (fun i => newItem env (newMongoItem i)) items.
Proof.
  intros Hall Hsort Hc Hquiet Hempty Hnd Hfree.
  rewrite Insert_fresh;
    [|done|done|done|intros i d _ Hd; rewrite Hempty in Hd; by apply elem_of_nil in Hd].
  cbn [snd].
  set (docs := map (fun item => encodeItem (newMongoItem item)) items).
  set (w1 := set_coll _ _).
  set (q := {| q_Predicate := []; q_Sort := []; q_Window := None |}).
  rewrite (Find_no_window_quiet env q w1 ∅) by done.
  assert (Hm : matching env ∅ (coll w1) = docs).
  { unfold w1, matching. simpl. rewrite Hempty. simpl.
    apply filter_all. apply Forall_forall. intros d _. apply Hall. }
  rewrite Hm. simpl.
  pose proof (Hsort (getSort q) docs) as Hperm.
  eexists _, _. split; [reflexivity|]. simpl.
  split; [|split; [done|]].
  - rewrite (Permutation_length Hperm). unfold docs. by rewrite length_map.
  - rewrite Hperm. unfold docs. rewrite map_map.
    erewrite (Forall_fmap_ext_1 _ (fun i => newItem env (newMongoItem i)));
      [done|].
    eapply Forall_impl; [exact Hfree|]. intros i Hi. simpl.
    by rewrite decode_encode_newMongoItem.
Qed.

Lemma ref_match_all_law : match_all_law ref_env.
Proof. intros d. reflexivity. Qed.

Lemma insert_then_find_witness :
  let items := [person "2" "b"; person "1" "a"] in
  let w := quiet [] in
  match_all_law ref_env /\
  sort_permutes ref_env /\
  NoDup (map ID items) /\
  Forall (fun i => reserved_free (Payload i)) items /\
  exists l w',
    Find ref_env {| q_Predicate := []; q_Sort := []; q_Window := None |}
      (Insert items w).2 = (Ok l, w') /\
    Total l = 2 /\
    ListLimit l = -1 /\
    Items l ≡ₚ map (fun i => newItem ref_env (newMongoItem i)) items.
Proof.
  intros items w.
  assert (Hnd : NoDup (map ID items)).
  { apply (bool_decide_unpack (NoDup (map ID items))). vm_compute. exact I. }
  assert (Hfree : Forall (fun i => reserved_free (Payload i)) items).
  { repeat constructor; vm_compute; reflexivity. }
  split; [exact ref_match_all_law|]. split; [exact ref_sort_permutes|].
  split; [exact Hnd|]. split; [exact Hfree|].
  exact (insert_then_find ref_env items w ref_match_all_law ref_sort_permutes
           eq_refl eq_refl eq_refl Hnd Hfree).
Defined.

(** ** Update and Delete: compare and swap *)

Lemma Collection_Update_quiet env sel doc w :
  script w = [] ->
  Collection_Update env sel doc w =
    match replaceFirst (matches env sel) doc (coll w) with
    | Some c => (None, set_coll c (logged (CallUpdate sel doc) w))
    | None => (Some MgoErrNotFound, logged (CallUpdate sel doc) w)
    end.
Proof. intros H. unfold Collection_Update. by rewrite roundTrip_quiet. Qed.

Lemma Collection_Remove_quiet env sel w :
  script w = [] ->
  Collection_Remove env sel w =
    match removeFirst (matches env sel) (coll w) with
    | Some c => (None, set_coll c (logged (CallRemove sel) w))
    | None => (Some MgoErrNotFound, logged (CallRemove sel) w)
    end.
Proof. intros H. unfold Collection_Remove. by rewrite roundTrip_quiet. Qed.

Lemma map_replace_absent (d new : bsonM) (c : list bsonM) :
  d ∉ c -> map (fun x => if decide (x = d) then new else x) c = c.
Proof.
  induction c as [|x c IH]; intros Hd; [done|].
  apply not_elem_of_cons in Hd as [Hne Hd]. simpl.
  destruct (decide (x = d)) as [->|_]; [done|]. by rewrite IH.
Qed.

Lemma filter_ne_absent (d : bsonM) (c : list bsonM) :
  d ∉ c -> filter (fun x => x <> d) c = c.
Proof.
  intros Hd. apply filter_all, Forall_forall. intros x Hx ->. done.
Qed.

Lemma filter_none {A} (P : A -> Prop) `{!forall x, Decision (P x)} (l : list A) :
  (forall x, x ∈ l -> ~ P x) -> filter P l = [].
Proof.
  induction l as [|x l IH]; intros Hno; [done|].
  rewrite filter_cons_False by (apply Hno; by left).
  apply IH. intros y Hy. apply Hno. by right.
Qed.

Lemma replaceFirst_unique (p : bsonM -> bool) (new d : bsonM) (c : list bsonM) :
  NoDup c -> d ∈ c -> p d = true ->
  (forall x, x ∈ c -> p x = true -> x = d) ->
  replaceFirst p new c =
    Some (map (fun x => if decide (x = d) then new else x) c).
Proof.
  induction c as [|x c IH]; intros Hnd Hd Hp Huniq.
  - by apply elem_of_nil in Hd.
  - apply NoDup_cons in Hnd as [Hx Hnd]. simpl.
    destruct (p x) eqn:Hpx.
    + assert (x = d) as -> by (apply Huniq; [by left|done]).
      destruct (decide (d = d)); [|done]. by rewrite map_replace_absent.
    + assert (x <> d) as Hne by (intros ->; congruence).
      apply elem_of_cons in Hd as [->|Hd]; [done|].
      rewrite IH; try done.
      * simpl. by destruct (decide (x = d)).
      * intros y Hy. apply Huniq. by right.
Qed.

Lemma removeFirst_unique (p : bsonM -> bool) (d : bsonM) (c : list bsonM) :
  NoDup c -> d ∈ c -> p d = true ->
  (forall x, x ∈ c -> p x = true -> x = d) ->
  removeFirst p c = Some (filter (fun x => x <> d) c).
Proof.
  induction c as [|x c IH]; intros Hnd Hd Hp Huniq.
  - by apply elem_of_nil in Hd.
  - apply NoDup_cons in Hnd as [Hx Hnd]. simpl.
    destruct (p x) eqn:Hpx.
    + assert (x = d) as -> by (apply Huniq; [by left|done]).
      rewrite filter_cons_False by (intros H; by apply H).
      by rewrite filter_ne_absent.
    + assert (x <> d) as Hne by (intros ->; congruence).
      apply elem_of_cons in Hd as [->|Hd]; [done|].
      rewrite IH; try done.
      * simpl. by rewrite filter_cons_True.
      * intros y Hy. apply Huniq. by right.
Qed.

Lemma replaceFirst_none (p : bsonM -> bool) (new : bsonM) (c : list bsonM) :
  (forall x, x ∈ c -> p x = false) -> replaceFirst p new c = None.
Proof.
  induction c as [|x c IH]; intros H; [done|]. simpl.
  rewrite (H x) by (by left). rewrite IH; [done|].
  intros y Hy. apply H. by right.
Qed.

Lemma removeFirst_none (p : bsonM -> bool) (c : list bsonM) :
  (forall x, x ∈ c -> p x = false) -> removeFirst p c = None.
Proof.
  induction c as [|x c IH]; intros H; [done|]. simpl.
  rewrite (H x) by (by left). rewrite IH; [done|].
  intros y Hy. apply H. by right.
Qed.

Lemma versionFilter_explicit id etag :
  String.prefix "p-" etag = false ->
  versionFilter id etag = {["_id" := id; "_etag" := VStr etag]}.
Proof. unfold versionFilter. by intros ->. Qed.

Lemma docID_lookup (d : bsonM) id : d !! "_id" = Some id -> docID d = id.
Proof. unfold docID. by intros ->. Qed.

(** The one document with an identifier, in a collection that keeps
    identifiers apart. *)
Lemma same_id_same_doc (c : list bsonM) (d x : bsonM) id :
  NoDup (map docID c) -> d ∈ c -> x ∈ c ->
  d !! "_id" = Some id -> x !! "_id" = Some id -> x = d.
Proof.
  intros Hnd Hd Hx Hdi Hxi. apply (NoDup_docID_inj c); try done.
  by rewrite (docID_lookup d id), (docID_lookup x id).
Qed.

(** The two outcomes of [Update] on a world nothing disturbs, for any
    reading [Q] the server makes of the version clause. *)
Lemma Update_swaps env item original w d (Q : bsonM -> Prop) :
  (forall x, matches env (versionFilter (ID original) (ETag original)) x = true
             <-> x !! "_id" = Some (ID original) /\ Q x) ->
  Handler_c w = None ->
  script w = [] ->
  NoDup (map docID (coll w)) ->
  d ∈ coll w ->
  d !! "_id" = Some (ID original) ->
  Q d ->
  let sel := versionFilter (ID original) (ETag original) in
  let new := encodeItem (newMongoItem item) in
  Update env item original w =
    (None,
     set_coll (map (fun x => if decide (x = d) then new else x) (coll w))
       (logged (CallUpdate sel new) w)).
Proof.
  intros Hsel Hc Hquiet Hnd Hd Hid HQ sel new.
  assert (Hndc : NoDup (coll w)) by (by apply NoDup_fmap_1 in Hnd).
  unfold Update. rewrite Hc, update_selector. fold sel new.
  rewrite Collection_Update_quiet by done.
  rewrite (replaceFirst_unique _ new d); try done.
  - by apply Hsel.
  - intros x Hx [Hxi _]%Hsel.
    by apply (same_id_same_doc (coll w) d x (ID original)).
Qed.

Lemma Update_conflicts env item original w d :
  (forall x, x ∈ coll w ->
             matches env (versionFilter (ID original) (ETag original)) x = false) ->
  (forall x, matches env {["_id" := ID original]} x = true <->
             x !! "_id" = Some (ID original)) ->
  Handler_c w = None ->
  script w = [] ->
  d ∈ coll w ->
  d !! "_id" = Some (ID original) ->
  let sel := versionFilter (ID original) (ETag original) in
  let new := encodeItem (newMongoItem item) in
  Update env item original w =
    (Some ErrConflict,
     logged (CallCount (Collection_FindId (ID original)))
       (logged (CallUpdate sel new) w)).
Proof.
  intros Hnone Hbyid Hc Hquiet Hd Hid sel new.
  unfold Update. rewrite Hc, update_selector. fold sel new.
  rewrite Collection_Update_quiet by done.
  rewrite replaceFirst_none by done.
  rewrite afterWrite_not_found by (intros ev; simpl; by rewrite Hquiet).
  rewrite roundTrip_quiet by done. simpl.
  assert ((countByID env (ID original) (logged (CallUpdate sel new) w) =? 0)
          = false) as ->.
  { apply Z.eqb_neq. unfold countByID. simpl.
    assert (d ∈ filter (fun x => matches env {["_id" := ID original]} x = true)
                    (coll w)) as Hin
      by (apply list_elem_of_filter; split; [by apply Hbyid|done]).
    destruct (filter _ (coll w)); [by apply elem_of_nil in Hin|simpl; lia]. }
  by rewrite (Handler_c_live w Hc).
Qed.

(** X12.  Compare and swap.  When the stored document of an identifier
    carries the ETag of [original], [Update] puts the encoded new item
    in its place, the rest of the collection staying as it is; the same
    call made again, now with a stale ETag, is refused with
    [ErrConflict] and changes nothing. *)
Theorem update_swaps_then_conflicts
    (env : Env) (item original : Item) (w : World) (d : bsonM) :
  version_law env (ID original) (ETag original) ->
  Handler_c w = None ->
  script w = [] ->
  NoDup (map docID (coll w)) ->
  d ∈ coll w ->
  d !! "_id" = Some (ID original) ->
  d !! "_etag" = Some (VStr (ETag original)) ->
  String.prefix "p-" (ETag original) = false ->
  ID item = ID original ->
  ETag item <> ETag original ->
  let new := encodeItem (newMongoItem item) in
  exists w1 w2,
    Update env item original w = (None, w1) /\
    coll w1 = map (fun x => if decide (x = d) then new else x) (coll w) /\
    Update env item original w1 = (Some ErrConflict, w2) /\
    coll w2 = coll w1.
Proof.
  intros [Hsel Hbyid] Hc Hquiet Hnd Hd Hid Hetag Hprefix Hsame Hstale new.
  set (sel := versionFilter (ID original) (ETag original)).
  assert (Hsel' : forall x, matches env sel x = true <->
            x !! "_id" = Some (ID original) /\
            x !! "_etag" = Some (VStr (ETag original))).
  { intros x. unfold sel. by rewrite versionFilter_explicit. }
  set (c1 := map (fun x => if decide (x = d) then new else x) (coll w)).
  set (w1 := set_coll c1 (logged (CallUpdate sel new) w)).
  assert (Hnew_id : new !! "_id" = Some (ID original)).
  { unfold new. rewrite encodeItem_id. simpl. by rewrite Hsame. }
  assert (Hnew : new ∈ coll w1).
  { simpl. unfold c1. apply list_elem_of_fmap. exists d.
    split; [by destruct (decide (d = d))|done]. }
  assert (Hnone : forall x, x ∈ coll w1 -> matches env sel x = false).
  { intros x Hx. apply not_true_is_false. intros [Hxi Hxe]%Hsel'.
    simpl in Hx. unfold c1 in Hx. apply list_elem_of_fmap in Hx as (y & -> & Hy).
    destruct (decide (y = d)) as [->|Hne].
    - unfold new in Hxe. rewrite encodeItem_etag in Hxe. simpl in Hxe. congruence.
    - apply Hne. by apply (same_id_same_doc (coll w) d y (ID original)). }
  eexists w1, _. split; [|split; [done|split]].
  - by apply (Update_swaps env item original w d
                (fun x => x !! "_etag" = Some (VStr (ETag original)))).
  - by apply (Update_conflicts env item original w1 new).
  - done.
Qed.

Lemma ref_version_law (s etag : string) : version_law ref_env (VStr s) etag.
Proof.
  split; intros d; simpl; unfold ref_matches; rewrite map_fold_andb_true.
  - rewrite map_Forall_insert by done. rewrite map_Forall_singleton. simpl.
    by rewrite !bool_decide_eq_true.
  - rewrite map_Forall_singleton. simpl. by rewrite bool_decide_eq_true.
Qed.

Lemma update_swaps_then_conflicts_witness :
  let w := quiet [named "1" "a"; stored_1234] in
  let item := item_1234 "etag3" in
  let original := item_1234 "etag2" in
  version_law ref_env (ID original) (ETag original) /\
  NoDup (map docID (coll w)) /\
  stored_1234 ∈ coll w /\
  exists w1 w2,
    Update ref_env item original w = (None, w1) /\
    coll w1 = [named "1" "a"; encodeItem (newMongoItem item)] /\
    Update ref_env item original w1 = (Some ErrConflict, w2) /\
    coll w2 = coll w1.
Proof.
  intros w item original.
  assert (Hnd : NoDup (map docID (coll w))).
  { apply (bool_decide_unpack (NoDup (map docID (coll w)))). vm_compute. exact I. }
  assert (Hd : stored_1234 ∈ coll w) by (right; by left).
  split; [exact (ref_version_law "1234" "etag2")|].
  split; [exact Hnd|]. split; [exact Hd|].
  destruct (update_swaps_then_conflicts ref_env item original w stored_1234
              (ref_version_law "1234" "etag2") eq_refl eq_refl Hnd Hd
              eq_refl eq_refl eq_refl eq_refl ltac:(discriminate))
    as (w1 & w2 & H1 & Hc1 & H2 & Hc2).
  exists w1, w2. split; [exact H1|]. split; [|split; [exact H2|exact Hc2]].
  rewrite Hc1. vm_compute. reflexivity.
Defined.

(** X13.  When the stored document of an identifier carries the ETag of
    the item, [Delete] removes that document and no other; the same
    call made again finds the identifier gone and returns
    [ErrNotFound]. *)
Theorem delete_removes_then_not_found
    (env : Env) (original : Item) (w : World) (d : bsonM) :
  version_law env (ID original) (ETag original) ->
  Handler_c w = None ->
  script w = [] ->
  NoDup (map docID (coll w)) ->
  d ∈ coll w ->
  d !! "_id" = Some (ID original) ->
  d !! "_etag" = Some (VStr (ETag original)) ->
  String.prefix "p-" (ETag original) = false ->
  exists w1 w2,
    Delete env original w = (None, w1) /\
    coll w1 = filter (fun x => x <> d) (coll w) /\
    Delete env original w1 = (Some ErrNotFound, w2) /\
    coll w2 = coll w1.
Proof.
  intros [Hsel Hbyid] Hc Hquiet Hnd Hd Hid Hetag Hprefix.
  set (sel := versionFilter (ID original) (ETag original)).
  assert (Hsel' : forall x, matches env sel x = true <->
            x !! "_id" = Some (ID original) /\
            x !! "_etag" = Some (VStr (ETag original))).
  { intros x. unfold sel. by rewrite versionFilter_explicit. }
  assert (Hndc : NoDup (coll w)) by (by apply NoDup_fmap_1 in Hnd).
  set (c1 := filter (fun x => x <> d) (coll w)).
  set (w1 := set_coll c1 (logged (CallRemove sel) w)).
  assert (Hgone : forall x, x ∈ c1 -> x !! "_id" <> Some (ID original)).
  { intros x Hx Hxi. unfold c1 in Hx. apply list_elem_of_filter in Hx as [Hne Hx].
    apply Hne. by apply (same_id_same_doc (coll w) d x (ID original)). }
  assert (Hcount : (countByID env (ID original) (logged (CallRemove sel) w1) =? 0)
                   = true).
  { apply Z.eqb_eq. unfold countByID. simpl.
    assert (filter (fun x => matches env {["_id" := ID original]} x = true) c1 = [])
      as ->; [|done].
    apply filter_none. intros x Hx Hm%Hbyid. by apply (Hgone x). }
  exists w1, (roundTrip (CallCount (Collection_FindId (ID original)))
                (logged (CallRemove sel) w1)).2.
  split; [|split; [done|split]].
  - unfold Delete. rewrite Hc, update_selector. fold sel.
    rewrite Collection_Remove_quiet by done.
    rewrite (removeFirst_unique _ d); try done.
    + by apply Hsel'.
    + intros x Hx [Hxi _]%Hsel'.
      by apply (same_id_same_doc (coll w) d x (ID original)).
  - unfold Delete. rewrite update_selector. fold sel.
    assert (Handler_c w1 = None) as -> by done.
    rewrite Collection_Remove_quiet by done.
    rewrite removeFirst_none.
    + rewrite afterWrite_not_found by (intros ev; simpl; by rewrite Hquiet).
      by rewrite Hcount.
    + intros x Hx. apply not_true_is_false. intros [Hxi _]%Hsel'.
      by apply (Hgone x).
  - by rewrite roundTrip_coll.
Qed.

Lemma delete_removes_then_not_found_witness :
  let w := quiet [named "1" "a"; stored_1234] in
  let original := item_1234 "etag2" in
  version_law ref_env (ID original) (ETag original) /\
  NoDup (map docID (coll w)) /\
  stored_1234 ∈ coll w /\
  exists w1 w2,
    Delete ref_env original w = (None, w1) /\
    coll w1 = [named "1" "a"] /\
    Delete ref_env original w1 = (Some ErrNotFound, w2) /\
    coll w2 = coll w1.
Proof.
  intros w original.
  assert (Hnd : NoDup (map docID (coll w))).
  { apply (bool_decide_unpack (NoDup (map docID (coll w)))). vm_compute. exact I. }
  assert (Hd : stored_1234 ∈ coll w) by (right; by left).
  split; [exact (ref_version_law "1234" "etag2")|].
  split; [exact Hnd|]. split; [exact Hd|].
  destruct (delete_removes_then_not_found ref_env original w stored_1234
              (ref_version_law "1234" "etag2") eq_refl eq_refl Hnd Hd
              eq_refl eq_refl eq_refl)
    as (w1 & w2 & H1 & Hc1 & H2 & Hc2).
  exists w1, w2. split; [exact H1|]. split; [|split; [exact H2|exact Hc2]].
  rewrite Hc1. vm_compute. reflexivity.
Defined.

Lemma afterWrite_coll env id r : coll (afterWrite env id r).2 = coll r.2.
Proof.
  destruct r as [err w1]. unfold afterWrite. destruct (decide _) as [_|_]; [|done].
  unfold Query_Count.
  pose proof (roundTrip_coll (CallCount (Collection_FindId id)) w1) as H.
  destruct (roundTrip _ w1) as [[failure|] w2]; simpl in *; [done|].
  destruct (_ =? 0); [done|]. by destruct (ctx_err w2).
Qed.

Lemma Collection_Update_coll env sel doc w :
  (Collection_Update env sel doc w).1 <> None ->
  coll (Collection_Update env sel doc w).2 = coll w.
Proof.
  unfold Collection_Update.
  pose proof (roundTrip_coll (CallUpdate sel doc) w) as H.
  destruct (roundTrip _ w) as [[failure|] w1]; simpl in *; [done|].
  by destruct (replaceFirst _ _ _).
Qed.

Lemma Collection_Remove_coll env sel w :
  (Collection_Remove env sel w).1 <> None ->
  coll (Collection_Remove env sel w).2 = coll w.
Proof.
  unfold Collection_Remove.
  pose proof (roundTrip_coll (CallRemove sel) w) as H.
  destruct (roundTrip _ w) as [[failure|] w1]; simpl in *; [done|].
  by destruct (removeFirst _ _).
Qed.

Lemma afterWrite_failed env id r e :
  (afterWrite env id r).1 = Some e -> r.1 <> None.
Proof.
  destruct r as [[err|] w1]; [done|]. unfold afterWrite.
  by destruct (decide _).
Qed.

(** X14.  An [Update] or a [Delete] that answers [ErrNotFound] or
    [ErrConflict] has left every stored document as it was. *)
Theorem refused_write_changes_nothing
    (env : Env) (item original : Item) (w : World) (e : error) :
  e = ErrNotFound \/ e = ErrConflict ->
  ((Update env item original w).1 = Some e ->
   coll (Update env item original w).2 = coll w) /\
  ((Delete env original w).1 = Some e ->
   coll (Delete env original w).2 = coll w).
Proof.
  intros _. unfold Update, Delete.
  destruct (Handler_c w); [done|]. rewrite !update_selector.
  split; intros Hres; rewrite afterWrite_coll;
    apply afterWrite_failed in Hres.
  - by apply Collection_Update_coll.
  - by apply Collection_Remove_coll.
Qed.

Lemma refused_write_changes_nothing_witness :
  let w := quiet [named "1" "a"; stored_1234] in
  (Update ref_env (item_1234 "etag3") (item_1234 "etag1") w).1
    = Some ErrConflict /\
  coll (Update ref_env (item_1234 "etag3") (item_1234 "etag1") w).2 = coll w.
Proof.
  intros w.
  assert (H : (Update ref_env (item_1234 "etag3") (item_1234 "etag1") w).1
              = Some ErrConflict) by (vm_compute; reflexivity).
  split; [exact H|].
  exact (proj1 (refused_write_changes_nothing ref_env (item_1234 "etag3")
                  (item_1234 "etag1") w ErrConflict (or_intror eq_refl)) H).
Defined.

(** ** Provisional ETags *)

Lemma newItem_ID env (d : bsonM) : ID (newItem env (decodeItem d)) = docID d.
Proof. done. Qed.

Lemma newItem_provisional env (d : bsonM) :
  d !! "_etag" = None \/ d !! "_etag" = Some (VStr "") ->
  String.prefix "p-" (ETag (newItem env (decodeItem d))) = true.
Proof.
  intros He. unfold newItem, decodeItem. simpl.
  assert ((match d !! "_etag" with Some (VStr s) => s | _ => "" end) = "")
    as -> by (by destruct He as [-> | ->]).
  destruct (decide ("" = "")); [|done].
  assert (Hp : forall s, String.prefix "p-" ("p-" +:+ s) = true)
    by (intros s; vm_compute; by destruct s).
  destruct (default VNil (d !! "_id")); apply Hp.
Qed.

Lemma versionFilter_provisional id etag :
  String.prefix "p-" etag = true ->
  versionFilter id etag =
    {["_id" := id; "_etag" := VDoc {["$exists" := VBool false]}]}.
Proof. intros H. unfold versionFilter. by rewrite H. Qed.

(** X15.  The provisional ETag end to end.  An item read from a stored
    document that has no [_etag] field can be handed back as the
    original of an [Update], which then replaces that document.  An
    item read from a document whose [_etag] is the empty string, which
    is how [Insert] stores an item without an ETag, gets a provisional
    ETag as well, but the filter built from it asks for an absent field:
    the update is refused with [ErrConflict] and the store stays as it
    is. *)
Theorem provisional_etag_update
    (env : Env) (item : Item) (w : World) (d : bsonM) :
  provisional_law env (docID d) ->
  Handler_c w = None ->
  script w = [] ->
  NoDup (map docID (coll w)) ->
  d ∈ coll w ->
  is_Some (d !! "_id") ->
  let original := newItem env (decodeItem d) in
  let new := encodeItem (newMongoItem item) in
  (d !! "_etag" = None ->
   exists w1,
     Update env item original w = (None, w1) /\
     coll w1 = map (fun x => if decide (x = d) then new else x) (coll w)) /\
  (d !! "_etag" = Some (VStr "") ->
   exists w1,
     Update env item original w = (Some ErrConflict, w1) /\
     coll w1 = coll w).
Proof.
  intros [Hsel Hbyid] Hc Hquiet Hnd Hd [id Hid] original new.
  assert (Hdoc : docID d = id) by (by apply docID_lookup).
  assert (Horig : ID original = id) by (by rewrite <- Hdoc).
  rewrite Hdoc in Hsel, Hbyid.
  split; intros Hetag.
  - assert (Hp : String.prefix "p-" (ETag original) = true)
      by (apply newItem_provisional; by left).
    eexists. split.
    + apply (Update_swaps env item original w d
               (fun x => x !! "_etag" = None)); try done.
      * intros x. rewrite (versionFilter_provisional _ _ Hp), Horig. apply Hsel.
      * by rewrite Horig.
    + done.
  - assert (Hp : String.prefix "p-" (ETag original) = true)
      by (apply newItem_provisional; by right).
    eexists. split.
    + apply (Update_conflicts env item original w d); try done.
      * intros x Hx. apply not_true_is_false.
        rewrite (versionFilter_provisional _ _ Hp), Horig.
        intros [Hxi Hxe]%Hsel.
        assert (x = d) as -> by (by apply (same_id_same_doc (coll w) d x id)).
        congruence.
      * intros x. rewrite Horig. apply Hbyid.
      * by rewrite Horig.
    + done.
Qed.

Lemma ref_provisional_law (s : string) : provisional_law ref_env (VStr s).
Proof.
  split; intros d; simpl; unfold ref_matches; rewrite map_fold_andb_true.
  - rewrite map_Forall_insert by done. rewrite map_Forall_singleton.
    unfold ref_clause.
    assert (is_operator_doc {["$exists" := VBool false]} = true) as ->
      by (vm_compute; reflexivity).
    rewrite map_fold_singleton. rewrite bool_decide_eq_true.
    split; intros [H1 H2]; (split; [done|]).
    + destruct (d !! "_etag"); [|done].
      vm_compute in H2. discriminate H2.
    + rewrite H2. vm_compute. reflexivity.
  - rewrite map_Forall_singleton. simpl. by rewrite bool_decide_eq_true.
Qed.

Lemma provisional_etag_update_witness :
  let bare : bsonM := {["_id" := VStr "7"; "name" := VStr "g"]} in
  let w := quiet [bare; named "1" "a"] in
  let item := item_1234 "etag3" in
  let new := encodeItem (newMongoItem item) in
  (provisional_law ref_env (docID bare) /\
   Handler_c w = None /\ script w = [] /\
   NoDup (map docID (coll w)) /\ bare ∈ coll w /\ is_Some (bare !! "_id") /\
   bare !! "_etag" = None) /\
  (exists w1,
     Update ref_env item (newItem ref_env (decodeItem bare)) w = (None, w1) /\
     coll w1 = map (fun x => if decide (x = bare) then new else x) (coll w)).
Proof.
  intros bare w item new.
  assert (H1 : provisional_law ref_env (docID bare))
    by (exact (ref_provisional_law "7")).
  assert (H2 : Handler_c w = None) by (vm_compute; reflexivity).
  assert (H3 : script w = []) by (vm_compute; reflexivity).
  assert (H4 : NoDup (map docID (coll w))).
  { apply (bool_decide_unpack (NoDup (map docID (coll w)))).
    vm_compute. exact I. }
  assert (H5 : bare ∈ coll w) by (apply list_elem_of_here).
  assert (H6 : is_Some (bare !! "_id")) by (exists (VStr "7"); vm_compute; reflexivity).
  assert (H7 : bare !! "_etag" = None) by (vm_compute; reflexivity).
  split; [done|].
  exact (proj1 (provisional_etag_update ref_env item w bare H1 H2 H3 H4 H5 H6)
           H7).
Defined.

(** ** Clear *)

Lemma Clear_no_window env q w qry :
  q_Window q = None ->
  getQuery q = Ok qry ->
  Handler_c w = None ->
  next_call_succeeds w ->
  let w1 := (roundTrip (CallRemoveAll qry) w).2 in
  Clear env q w =
    ((Z.of_nat (length (matching env qry (coll w))), ctx_err w1),
     set_coll (filter (fun d => matches env qry d <> true) (coll w)) w1).
Proof.
  intros Hw Hq Hc Hnext w1. unfold Clear. rewrite Hq, Hc, Hw.
  unfold Collection_RemoveAll.
  pose proof (roundTrip_succeeds (CallRemoveAll qry) w Hnext) as Hrt.
  pose proof (roundTrip_coll (CallRemoveAll qry) w) as Hcoll.
  fold w1 in Hrt, Hcoll.
  destruct (roundTrip (CallRemoveAll qry) w) as [failure w1'] eqn:E.
  simpl in w1, Hrt, Hcoll. subst failure w1. simpl. by rewrite Hcoll.
Qed.

Lemma filter_twice_none env qry (c : list bsonM) :
  filter (fun d => matches env qry d = true)
         (filter (fun d => matches env qry d <> true) c) = [].
Proof.
  apply filter_none. by intros x [Hx _]%list_elem_of_filter.
Qed.

(** X16.  [Clear] on a query without a window, with nothing in its way,
    removes the stored documents its filter matches and no other,
    reports how many they were and no error, and a [Count] of the same
    query made afterwards answers 0. *)
Theorem clear_removes_the_matching
    (env : Env) (q : Query) (w : World) (qry : bsonM) :
  q_Window q = None ->
  getQuery q = Ok qry ->
  Handler_c w = None ->
  script w = [] ->
  exists w1 w2,
    Clear env q w = ((Z.of_nat (length (matching env qry (coll w))), None), w1) /\
    coll w1 = filter (fun d => matches env qry d <> true) (coll w) /\
    Count env q w1 = ((0, None), w2).
Proof.
  intros Hw Hq Hc Hquiet.
  assert (Hnext : next_call_succeeds w) by (intros ev; by rewrite Hquiet).
  rewrite (Clear_no_window env q w qry Hw Hq Hc Hnext).
  rewrite roundTrip_quiet by done. simpl.
  rewrite (Handler_c_live w Hc).
  eexists _, _. split; [done|]. split; [done|].
  unfold Count. rewrite Hq.
  assert (Handler_c (set_coll (filter (fun d => matches env qry d <> true) (coll w))
                       (logged (CallRemoveAll qry) w)) = None) as ->
    by (unfold Handler_c in *; done).
  unfold Query_Count. rewrite roundTrip_quiet by done. simpl.
  unfold counted. simpl. by rewrite filter_twice_none.
Qed.

Lemma clear_removes_the_matching_witness :
  let q := name_in_c_d None in
  let w := quiet [named "1" "a"; named "3" "c"; named "4" "d"] in
  let qry : bsonM := {["name" := VDoc {["$in" := VList [VStr "c"; VStr "d"]]}]} in
  (q_Window q = None /\ getQuery q = Ok qry /\
   Handler_c w = None /\ script w = []) /\
  exists w1 w2,
    Clear ref_env q w =
      ((Z.of_nat (length (matching ref_env qry (coll w))), None), w1) /\
    coll w1 = filter (fun d => matches ref_env qry d <> true) (coll w) /\
    Count ref_env q w1 = ((0, None), w2).
Proof.
  intros q w qry.
  assert (H1 : q_Window q = None) by reflexivity.
  assert (H2 : getQuery q = Ok qry) by (vm_compute; reflexivity).
  assert (H3 : Handler_c w = None) by reflexivity.
  assert (H4 : script w = []) by reflexivity.
  split; [done|].
  exact (clear_removes_the_matching ref_env q w qry H1 H2 H3 H4).
Defined.

(** X17.  The two results of [Clear] can both be present.  When the
    context ends while the bulk delete is under way and the driver does
    not fail the call, the matching documents are removed all the same:
    [Clear] reports their number together with the context's error. *)
Theorem clear_counts_and_reports_ended_context
    (env : Env) (q : Query) (w : World) (qry : bsonM)
    (ev : Event) (rest : list Event) (cerr : error) :
  q_Window q = None ->
  getQuery q = Ok qry ->
  Handler_c w = None ->
  script w = ev :: rest ->
  ev_error ev = None ->
  ev_done ev = Some cerr ->
  exists w1,
    Clear env q w =
      ((Z.of_nat (length (matching env qry (coll w))), Some cerr), w1) /\
    coll w1 = filter (fun d => matches env qry d <> true) (coll w).
Proof.
  intros Hw Hq Hc Hs Herr Hdone.
  assert (Hnext : next_call_succeeds w).
  { intros ev'. rewrite Hs. simpl. by intros [= <-]. }
  rewrite (Clear_no_window env q w qry Hw Hq Hc Hnext).
  unfold roundTrip. rewrite Hs. simpl.
  rewrite (Handler_c_live w Hc), Hdone.
  by eexists.
Qed.

Lemma clear_counts_and_reports_ended_context_witness :
  let q := name_in_c_d None in
  let w := cancelled_during_first_call
             [named "1" "a"; named "3" "c"; named "4" "d"] in
  let qry : bsonM := {["name" := VDoc {["$in" := VList [VStr "c"; VStr "d"]]}]} in
  let ev := {| ev_error := None; ev_done := Some Canceled |} in
  (q_Window q = None /\ getQuery q = Ok qry /\ Handler_c w = None /\
   script w = [ev] /\ ev_error ev = None /\ ev_done ev = Some Canceled) /\
  exists w1,
    Clear ref_env q w =
      ((Z.of_nat (length (matching ref_env qry (coll w))), Some Canceled), w1) /\
    coll w1 = filter (fun d => matches ref_env qry d <> true) (coll w).
Proof.
  intros q w qry ev.
  assert (H1 : q_Window q = None) by reflexivity.
  assert (H2 : getQuery q = Ok qry) by (vm_compute; reflexivity).
  assert (H3 : Handler_c w = None) by reflexivity.
  assert (H4 : script w = [ev]) by reflexivity.
  assert (H5 : ev_error ev = None) by reflexivity.
  assert (H6 : ev_done ev = Some Canceled) by reflexivity.
  split; [done|].
  exact (clear_counts_and_reports_ended_context ref_env q w qry ev [] Canceled
           H1 H2 H3 H4 H5 H6).
Defined.

(** X18.  When the driver fails the first round trip of [Clear], the
    pre-pass of a query with a window or the bulk delete of one without,
    [Clear] reports 0 and the driver's error, the store stays as it is,
    and no second round trip is made: a failed pre-pass is never
    followed by a delete. *)
Theorem clear_failed_first_call
    (env : Env) (q : Query) (w : World) (qry : bsonM)
    (ev : Event) (rest : list Event) (e : error) :
  getQuery q = Ok qry ->
  Handler_c w = None ->
  script w = ev :: rest ->
  ev_error ev = Some e ->
  let first :=
    match q_Window q with
    | Some window =>
        CallIter (Query_Select {["_id" := VInt 1]}
                    (applyWindow (Query_Sort (getSort q) (Collection_Find qry))
                       window))
    | None => CallRemoveAll qry
    end in
  exists w1,
    Clear env q w = ((0, Some e), w1) /\
    coll w1 = coll w /\
    calls w1 = (calls w ++ [first])%list.
Proof.
  intros Hq Hc Hs Herr first. unfold Clear. rewrite Hq, Hc.
  destruct (q_Window q) as [window|].
  - unfold selectIDs, Query_Iter, roundTrip. rewrite Hs, Herr. simpl.
    by eexists.
  - unfold Collection_RemoveAll, roundTrip. rewrite Hs, Herr. simpl.
    by eexists.
Qed.

Lemma clear_failed_first_call_witness :
  let window := {| Offset := 0; Limit := 1 |} in
  let q := name_in_c_d (Some window) in
  let ev := {| ev_error := Some (OtherError "EOF"); ev_done := None |} in
  let w := {| coll := [named "3" "c"; named "4" "d"]; ctx_err := None;
              handler_err := None; script := [ev]; calls := [] |} in
  let qry : bsonM := {["name" := VDoc {["$in" := VList [VStr "c"; VStr "d"]]}]} in
  (getQuery q = Ok qry /\ Handler_c w = None /\ script w = [ev] /\
   ev_error ev = Some (OtherError "EOF")) /\
  exists w1,
    Clear ref_env q w = ((0, Some (OtherError "EOF")), w1) /\
    coll w1 = coll w /\
    calls w1 =
      (calls w ++
       [CallIter (Query_Select {["_id" := VInt 1]}
                    (applyWindow (Query_Sort (getSort q) (Collection_Find qry))
                       window))])%list.
Proof.
  intros window q ev w qry.
  assert (H1 : getQuery q = Ok qry) by (vm_compute; reflexivity).
  assert (H2 : Handler_c w = None) by reflexivity.
  assert (H3 : script w = [ev]) by reflexivity.
  assert (H4 : ev_error ev = Some (OtherError "EOF")) by reflexivity.
  split; [done|].
  exact (clear_failed_first_call ref_env q w qry ev [] (OtherError "EOF")
           H1 H2 H3 H4).
Defined.

(** ** Find and Count *)

Lemma findLoop_ok env ctx docs acc items :
  findLoop env ctx docs acc = Ok items ->
  items = (acc ++ map (fun d => newItem env (decodeItem d)) docs)%list.
Proof.
  destruct ctx as [cerr|].
  - intros [-> ->]%findLoop_ended. by rewrite app_nil_r.
  - rewrite findLoop_live. by intros [= <-].
Qed.

Lemma cursor_findQuery env q qry c :
  cursor env (findQuery q qry) c =
    limitDocs (if -1 <? requestedLimit q then Some (requestedLimit q) else None)
      (skipDocs (if 0 <? requestedOffset q then Some (requestedOffset q) else None)
         (sortDocs env (getSort q) (matching env qry c))).
Proof.
  unfold cursor, findQuery, requestedLimit, requestedOffset, matching.
  destruct (q_Window q) as [window|].
  - destruct (applyWindow_keeps (Query_Sort (getSort q) (Collection_Find qry))
                window) as (-> & -> & -> & -> & ->).
    simpl. by rewrite map_id.
  - simpl. by rewrite map_id.
Qed.

Lemma findWindow_items env q w l w1 qry :
  getQuery q = Ok qry ->
  findWindow env q w = (Ok l, w1) ->
  Items l = map (fun d => newItem env (decodeItem d))
                (cursor env (findQuery q qry) (coll w)).
Proof.
  intros Hq. unfold findWindow, findQuery. rewrite Hq.
  destruct (Handler_c w); [done|].
  set (mq := match q_Window q with
             | Some window =>
                 applyWindow (Query_Sort (getSort q) (Collection_Find qry)) window
             | None => Query_Sort (getSort q) (Collection_Find qry)
             end).
  assert (forall limit,
    (let '(docs, closeErr, w1) := Query_Iter env mq w in
     match findLoop env (ctx_err w1) docs [] with
     | Err err => (Err err, w1)
     | Ok items =>
         match closeErr with
         | Some err => (Err err, w1)
         | None =>
             let n := Z.of_nat (length items) in
             let total :=
               if (limit <? 0) || (n <? limit) then
                 match q_Window q with
                 | Some window =>
                     if 0 <? Offset window then
                       if 0 <? n then Offset window + n else -1
                     else n
                 | None => n
                 end
               else -1 in
             (Ok {| Total := total; ListLimit := limit; Items := items |}, w1)
         end
     end) = (Ok l, w1) ->
    Items l = map (fun d => newItem env (decodeItem d)) (cursor env mq (coll w)))
    as Hgen.
  { intros limit. unfold Query_Iter.
    pose proof (roundTrip_coll (CallIter mq) w) as Hcoll.
    destruct (roundTrip (CallIter mq) w) as [[e|] w'].
    - simpl. by destruct (ctx_err w').
    - simpl in Hcoll. rewrite Hcoll.
      destruct (findLoop env (ctx_err w') (cursor env mq (coll w)) []) as [items|]
        eqn:EF; [|done].
      apply findLoop_ok in EF. by intros [= <- <-]. }
  subst mq. destruct (q_Window q) as [window|]; apply Hgen.
Qed.

Lemma Count_ok env q w qry n w1 :
  getQuery q = Ok qry ->
  Count env q w = ((n, None), w1) ->
  n = Z.of_nat (length (matching env qry (coll w))).
Proof.
  intros Hq. unfold Count. rewrite Hq.
  destruct (Handler_c w); [done|].
  unfold Query_Count.
  pose proof (roundTrip_coll (CallCount (Collection_Find qry)) w) as Hcoll.
  destruct (roundTrip (CallCount (Collection_Find qry)) w) as [[e|] w'];
    [done|].
  simpl in Hcoll. rewrite Hcoll. by intros [= <- <-].
Qed.

Lemma findWindow_total_sound env q w w1 qry l :
  sort_permutes env ->
  getQuery q = Ok qry ->
  requestedLimit q <> 0 ->
  findWindow env q w = (Ok l, w1) ->
  Total l <> -1 ->
  Total l = Z.of_nat (length (matching env qry (coll w))).
Proof.
  intros Hsort Hq Hlimit Hfw Htotal.
  pose proof (findWindow_total env q w w1 l Hlimit Hfw) as [Hbelow Hat].
  pose proof (findWindow_items env q w l w1 qry Hq Hfw) as Hitems.
  rewrite cursor_findQuery in Hitems.
  pose proof (Permutation_length (Hsort (getSort q) (matching env qry (coll w))))
    as Hlen.
  set (sorted := sortDocs env (getSort q) (matching env qry (coll w))) in *.
  assert (Hn : length (Items l) =
               length (limitDocs
                 (if -1 <? requestedLimit q then Some (requestedLimit q)
                  else None)
                 (skipDocs
                    (if 0 <? requestedOffset q then Some (requestedOffset q)
                     else None) sorted)))
    by (by rewrite Hitems, length_map).
  rewrite <- Hlen. clear Hitems Hlen.
  unfold limitDocs, skipDocs in Hn.
  destruct (Z.ltb_spec (-1) (requestedLimit q)) as [HL|HL];
    destruct (Z.ltb_spec 0 (requestedOffset q)) as [HO|HO];
    try (destruct (Z.eqb_spec (requestedLimit q) 0) as [HZ|HZ]; [done|]);
    rewrite ?length_take, ?length_drop in Hn; lia.
Qed.

Lemma Find_total_sound env q w w1 qry l :
  sort_permutes env ->
  getQuery q = Ok qry ->
  Find env q w = (Ok l, w1) ->
  Total l <> -1 ->
  Total l = Z.of_nat (length (matching env qry (coll w))).
Proof.
  intros Hsort Hq Hfind Htotal.
  pose proof (findWindow_total_sound env q w w1 qry l Hsort Hq) as Hw.
  unfold Find in Hfind. unfold requestedLimit in Hw.
  destruct (q_Window q) as [window|].
  - destruct (Z.eqb_spec (Limit window) 0) as [HZ|HZ].
    + destruct (Count env q w) as [[n [e|]] w'] eqn:EC; [done|].
      injection Hfind as <- <-. simpl.
      by apply (Count_ok env q w qry n w').
    + by apply Hw.
  - by apply Hw.
Qed.

(** X19.  The total of a list is never a guess.  Whatever happens on the
    way, when [Find] returns a list whose [Total] is not -1, that total
    is the number of stored documents the translated filter matches,
    with or without a window, provided the server's sort only reorders
    what it is given. *)
Theorem find_total_counts_the_matching
    (env : Env) (q : Query) (w w1 : World) (qry : bsonM) (l : ItemList) :
  sort_permutes env ->
  getQuery q = Ok qry ->
  Find env q w = (Ok l, w1) ->
  Total l <> -1 ->
  Total l = Z.of_nat (length (matching env qry (coll w))).
Proof. apply Find_total_sound. Qed.
Lemma find_total_counts_the_matching_witness :
  let q := {| q_Predicate := []; q_Sort := [];
              q_Window := Some {| Offset := 1; Limit := 10 |} |} in
  let w := quiet [named "1" "a"; named "2" "b"; named "3" "c"] in
  let r := Find ref_env q w in
  let l := match r.1 with
           | Ok l => l
           | Err _ => {| Total := -1; ListLimit := 0; Items := [] |}
           end in
  (sort_permutes ref_env /\ getQuery q = Ok ∅ /\
   Find ref_env q w = (Ok l, r.2) /\ Total l <> -1) /\
  Total l = Z.of_nat (length (matching ref_env ∅ (coll w))).
Proof.
  intros q w r l.
  assert (H1 : sort_permutes ref_env) by exact ref_sort_permutes.
  assert (H2 : getQuery q = Ok ∅) by (vm_compute; reflexivity).
  assert (H3 : Find ref_env q w = (Ok l, r.2)) by (vm_compute; reflexivity).
  assert (H4 : Total l <> -1).
  { assert (Total l = 3) as -> by (vm_compute; reflexivity). done. }
  split; [exact (conj H1 (conj H2 (conj H3 H4)))|].
  exact (find_total_counts_the_matching ref_env q w r.2 ∅ l H1 H2 H3 H4).
Defined.

Lemma newItem_well_formed env (m : mongoItem) :
  Payload (newItem env m) !! "id" = Some (ID (newItem env m)) /\
  ETag (newItem env m) <> "".
Proof.
  split.
  - unfold newItem. simpl. by rewrite lookup_insert_eq.
  - assert (Hp : forall s, "p-" +:+ s <> "")
      by (intros s H; vm_compute in H; discriminate H).
    unfold newItem. simpl.
    destruct (decide (mETag m = "")); [|done].
    destruct (mID m); apply Hp.
Qed.

Lemma limit_skip_subseteq (limit skip : option Z) (l : list bsonM) :
  limitDocs limit (skipDocs skip l) ⊆ l.
Proof.
  transitivity (skipDocs skip l).
  - unfold limitDocs. destruct limit as [n|]; [|done].
    destruct (n =? 0); [done|]. apply subseteq_take.
  - unfold skipDocs. destruct skip as [n|]; [|done]. apply subseteq_drop.
Qed.

(** X20.  What [Find] returns comes from the store.  Every item of a
    list it returns is the decoding of a stored document that the
    translated filter matches; it carries its identifier in its payload
    under "id" and an ETag that is not empty; and with a limit that is
    not negative there are at most that many items. *)
Theorem find_items_come_from_the_store
    (env : Env) (q : Query) (w w1 : World) (qry : bsonM) (l : ItemList) :
  sort_permutes env ->
  getQuery q = Ok qry ->
  Find env q w = (Ok l, w1) ->
  Forall (fun i => exists d, d ∈ coll w /\ matches env qry d = true /\
                             i = newItem env (decodeItem d)) (Items l) /\
  Forall (fun i => Payload i !! "id" = Some (ID i) /\ ETag i <> "") (Items l) /\
  (0 <= requestedLimit q -> Z.of_nat (length (Items l)) <= requestedLimit q).
Proof.
  intros Hsort Hq Hfind.
  assert (Hw : requestedLimit q <> 0 ->
               findWindow env q w = (Ok l, w1) ->
               Forall (fun i => exists d, d ∈ coll w /\ matches env qry d = true /\
                                 i = newItem env (decodeItem d)) (Items l) /\
               (0 <= requestedLimit q ->
                Z.of_nat (length (Items l)) <= requestedLimit q)).
  { intros Hlimit Hfw.
    rewrite (findWindow_items env q w l w1 qry Hq Hfw), cursor_findQuery.
    split.
    - apply Forall_forall. intros i (d & -> & Hd)%list_elem_of_fmap.
      exists d. apply limit_skip_subseteq in Hd.
      rewrite (Hsort (getSort q) (matching env qry (coll w))) in Hd.
      apply list_elem_of_filter in Hd as [Hm Hd]. done.
    - intros Hpos. rewrite length_map.
      destruct (Z.ltb_spec (-1) (requestedLimit q)) as [HL|HL]; [|lia].
      unfold limitDocs.
      destruct (Z.eqb_spec (requestedLimit q) 0) as [HZ|HZ]; [done|].
      rewrite length_take. lia. }
  assert (Hall : Forall (fun i => exists d, d ∈ coll w /\ matches env qry d = true /\
                                   i = newItem env (decodeItem d)) (Items l) /\
                 (0 <= requestedLimit q ->
                  Z.of_nat (length (Items l)) <= requestedLimit q)).
  { unfold Find in Hfind. unfold requestedLimit in *.
    destruct (q_Window q) as [window|].
    - destruct (Z.eqb_spec (Limit window) 0) as [HZ|HZ].
      + destruct (Count env q w) as [[n [e|]] w'] eqn:EC; [done|].
        injection Hfind as <- <-. simpl. split; [done|lia].
      + by apply Hw.
    - by apply Hw. }
  destruct Hall as [Hfrom Hlen]. split; [done|]. split; [|done].
  eapply Forall_impl; [exact Hfrom|].
  intros i (d & _ & _ & ->). apply newItem_well_formed.
Qed.

Lemma find_items_come_from_the_store_witness :
  let q := {| q_Predicate := [Equal "name" (VStr "b")]; q_Sort := [];
              q_Window := Some {| Offset := 0; Limit := 1 |} |} in
  let qry : bsonM := {["name" := VStr "b"]} in
  let w := quiet [named "1" "a"; named "2" "b"; named "3" "c"] in
  let r := Find ref_env q w in
  let l := match r.1 with
           | Ok l => l
           | Err _ => {| Total := -1; ListLimit := 0; Items := [] |}
           end in
  (sort_permutes ref_env /\ getQuery q = Ok qry /\
   Find ref_env q w = (Ok l, r.2)) /\
  Forall (fun i => exists d, d ∈ coll w /\ matches ref_env qry d = true /\
                             i = newItem ref_env (decodeItem d)) (Items l) /\
  Forall (fun i => Payload i !! "id" = Some (ID i) /\ ETag i <> "") (Items l) /\
  (0 <= requestedLimit q -> Z.of_nat (length (Items l)) <= requestedLimit q).
Proof.
  intros q qry w r l.
  assert (H1 : sort_permutes ref_env) by exact ref_sort_permutes.
  assert (H2 : getQuery q = Ok qry) by (vm_compute; reflexivity).
  assert (H3 : Find ref_env q w = (Ok l, r.2)) by (vm_compute; reflexivity).
  split; [exact (conj H1 (conj H2 H3))|].
  exact (find_items_come_from_the_store ref_env q w r.2 qry l H1 H2 H3).
Defined.

(** X21.  A context that ends while the query of [Find] is under way is
    noticed only when a document comes back.  If the query yields at
    least one document, [Find] fails with the context's error and
    returns no list; if it yields none, [Find] succeeds with an empty
    list, as if the context were live. *)
Theorem find_notices_ended_context_on_first_document
    (env : Env) (q : Query) (w : World) (qry : bsonM)
    (ev : Event) (rest : list Event) (cerr : error) :
  getQuery q = Ok qry ->
  Handler_c w = None ->
  requestedLimit q <> 0 ->
  script w = ev :: rest ->
  ev_error ev = None ->
  ev_done ev = Some cerr ->
  let docs := cursor env (findQuery q qry) (coll w) in
  (docs <> [] -> (Find env q w).1 = Err cerr) /\
  (docs = [] -> exists l, (Find env q w).1 = Ok l /\ Items l = []).
Proof.
  intros Hq Hc Hlimit Hs Herr Hdone docs.
  assert (Hfw : Find env q w = findWindow env q w).
  { unfold Find. unfold requestedLimit in Hlimit.
    destruct (q_Window q) as [window|]; [|done].
    by destruct (Z.eqb_spec (Limit window) 0). }
  rewrite Hfw. unfold docs, findWindow, findQuery. rewrite Hq, Hc.
  destruct (q_Window q) as [window|];
    unfold Query_Iter, roundTrip; rewrite Hs, Herr; simpl;
    rewrite (Handler_c_live w Hc), Hdone;
    (match goal with |- context [cursor env ?mq (coll w)] =>
       destruct (cursor env mq (coll w)) as [|d ds] end);
    simpl; (split; [done|]); try done; intros _; by eexists.
Qed.

Lemma find_notices_ended_context_on_first_document_witness :
  let q := {| q_Predicate := [Equal "name" (VStr "b")]; q_Sort := [];
              q_Window := None |} in
  let qry : bsonM := {["name" := VStr "b"]} in
  let w := cancelled_during_first_call [named "1" "a"; named "2" "b"] in
  let ev := {| ev_error := None; ev_done := Some Canceled |} in
  (getQuery q = Ok qry /\ Handler_c w = None /\ requestedLimit q <> 0 /\
   script w = [ev] /\ ev_error ev = None /\ ev_done ev = Some Canceled /\
   cursor ref_env (findQuery q qry) (coll w) <> []) /\
  (Find ref_env q w).1 = Err Canceled.
Proof.
  intros q qry w ev.
  assert (H1 : getQuery q = Ok qry) by (vm_compute; reflexivity).
  assert (H2 : Handler_c w = None) by reflexivity.
  assert (H3 : requestedLimit q <> 0) by (vm_compute; discriminate).
  assert (H4 : script w = [ev]) by reflexivity.
  assert (H5 : ev_error ev = None) by reflexivity.
  assert (H6 : ev_done ev = Some Canceled) by reflexivity.
  assert (H7 : cursor ref_env (findQuery q qry) (coll w) <> []).
  { assert (length (cursor ref_env (findQuery q qry) (coll w)) = 1%nat) as Hl
      by (vm_compute; reflexivity).
    intros E. rewrite E in Hl. discriminate Hl. }
  split; [exact (conj H1 (conj H2 (conj H3 (conj H4 (conj H5 (conj H6 H7))))))|].
  exact (proj1 (find_notices_ended_context_on_first_document ref_env q w qry ev []
                  Canceled H1 H2 H3 H4 H5 H6) H7).
Defined.

(** X22.  [Count] and [Find] agree.  The number [Count] answers for a
    query is the number of stored documents its filter matches, whatever
    window the query carries, and it is the [Total] of any list [Find]
    returns on the same store for a query with the same predicate, when
    that total is known. *)
Theorem count_agrees_with_find
    (env : Env) (q q' : Query) (w w1 w2 : World) (n : Z) (l : ItemList) :
  sort_permutes env ->
  q_Predicate q' = q_Predicate q ->
  Count env q w = ((n, None), w1) ->
  Find env q' w = (Ok l, w2) ->
  Total l <> -1 ->
  Total l = n /\
  exists qry, getQuery q = Ok qry /\
              n = Z.of_nat (length (matching env qry (coll w))).
Proof.
  intros Hsort Hpred Hcount Hfind Htotal.
  destruct (getQuery q) as [qry|e] eqn:Hq.
  - assert (Hq' : getQuery q' = Ok qry)
      by (unfold getQuery in *; by rewrite Hpred).
    pose proof (Count_ok env q w qry n w1 Hq Hcount) as Hn.
    split; [|by exists qry].
    rewrite Hn. by apply (Find_total_sound env q' w w2 qry l).
  - unfold Count in Hcount. by rewrite Hq in Hcount.
Qed.

Lemma count_agrees_with_find_witness :
  let q := name_in_c_d (Some {| Offset := 5; Limit := 1 |}) in
  let q' := name_in_c_d None in
  let w := quiet [named "1" "a"; named "3" "c"; named "4" "d"] in
  let c := Count ref_env q w in
  let r := Find ref_env q' w in
  let l := match r.1 with
           | Ok l => l
           | Err _ => {| Total := -1; ListLimit := 0; Items := [] |}
           end in
  (sort_permutes ref_env /\ q_Predicate q' = q_Predicate q /\
   Count ref_env q w = ((2, None), c.2) /\
   Find ref_env q' w = (Ok l, r.2) /\ Total l <> -1) /\
  Total l = 2 /\
  exists qry, getQuery q = Ok qry /\
              2 = Z.of_nat (length (matching ref_env qry (coll w))).
Proof.
  intros q q' w c r l.
  assert (H1 : sort_permutes ref_env) by exact ref_sort_permutes.
  assert (H2 : q_Predicate q' = q_Predicate q) by reflexivity.
  assert (H3 : Count ref_env q w = ((2, None), c.2)) by (vm_compute; reflexivity).
  assert (H4 : Find ref_env q' w = (Ok l, r.2)) by (vm_compute; reflexivity).
  assert (H5 : Total l <> -1).
  { assert (Total l = 2) as -> by (vm_compute; reflexivity). discriminate. }
  split; [exact (conj H1 (conj H2 (conj H3 (conj H4 H5))))|].
  exact (count_agrees_with_find ref_env q q' w c.2 r.2 2 l H1 H2 H3 H4 H5).
Defined.

(** ** Several expressions on one key *)

Lemma translateLoop_app p q b :
  translateLoop (p ++ q) b = try b' <- translateLoop p b; translateLoop q b'.
Proof.
  revert b. induction p as [|e p IH]; intros b; simpl; [done|].
  destruct (translateExpression b e) as [b'|err]; simpl; [apply IH|done].
Qed.

Lemma translateLoop_keeps_key q k b0 b :
  Forall (fun e => forall sb, translatePredicate [e] = Ok sb -> sb !! k = None) q ->
  translateLoop q b0 = Ok b ->
  b !! k = b0 !! k.
Proof.
  intros Hq. revert b0. induction Hq as [|e q He Hq IH]; intros b0; simpl.
  - by intros [= <-].
  - rewrite translateExpression_entry.
    rewrite translatePredicate_singleton in He.
    destruct (translateExpression ∅ e) as [r|err]; simpl; [|done].
    intros Hb%IH. rewrite Hb.
    apply lookup_union_r. by apply He.
Qed.

(** X23.  Within one predicate the last expression written under a key
    is the one the filter keeps.  If an expression translates on its own
    to the single entry [k := v], and no expression after it in the
    predicate writes under [k], then the translated predicate holds [v]
    under [k], whatever expressions came before: the clause of an
    earlier expression on the same key is replaced, not combined. *)
Theorem last_expression_on_a_key_wins
    (q1 q2 : Predicate) (e : Expression) (b : bsonM) (k : string) (v : value) :
  translatePredicate (q1 ++ e :: q2) = Ok b ->
  translatePredicate [e] = Ok {[k := v]} ->
  Forall (fun e' => forall sb, translatePredicate [e'] = Ok sb -> sb !! k = None)
         q2 ->
  b !! k = Some v.
Proof.
  intros Hb He Hq2. unfold translatePredicate in Hb.
  rewrite translateLoop_app in Hb.
  destruct (translateLoop q1 ∅) as [b1|err]; simpl in Hb; [|done].
  rewrite translateExpression_entry in Hb.
  rewrite translatePredicate_singleton in He. rewrite He in Hb. simpl in Hb.
  rewrite (translateLoop_keeps_key q2 k _ b Hq2 Hb).
  apply lookup_union_Some_l. by rewrite lookup_singleton_eq.
Qed.

Lemma last_expression_on_a_key_wins_witness :
  let q1 := [GreaterThan "f" (VInt 1)] in
  let e := LowerThan "f" (VInt 5) in
  let q2 := [Equal "g" (VInt 2)] in
  let b : bsonM := {["f" := VDoc {["$lt" := VInt 5]}; "g" := VInt 2]} in
  (translatePredicate (q1 ++ e :: q2) = Ok b /\
   translatePredicate [e] = Ok {["f" := VDoc {["$lt" := VInt 5]}]} /\
   Forall (fun e' => forall sb, translatePredicate [e'] = Ok sb ->
                                sb !! "f" = None) q2) /\
  b !! "f" = Some (VDoc {["$lt" := VInt 5]}).
Proof.
  intros q1 e q2 b.
  assert (H1 : translatePredicate (q1 ++ e :: q2) = Ok b)
    by (vm_compute; reflexivity).
  assert (H2 : translatePredicate [e] = Ok {["f" := VDoc {["$lt" := VInt 5]}]})
    by (vm_compute; reflexivity).
  assert (H3 : Forall (fun e' => forall sb, translatePredicate [e'] = Ok sb ->
                                            sb !! "f" = None) q2).
  { constructor; [|constructor].
    intros sb Hsb.
    assert (translatePredicate [Equal "g" (VInt 2)] = Ok {["g" := VInt 2]}) as E
      by (vm_compute; reflexivity).
    rewrite E in Hsb. injection Hsb as <-. vm_compute. reflexivity. }
  split; [exact (conj H1 (conj H2 H3))|].
  exact (last_expression_on_a_key_wins q1 q2 e b "f" _ H1 H2 H3).
Defined.
